(** * Dagit asset-graph explorer and log toolbar: status roll-up, pipeline
      gating and range-selection path search.

    Shallow embedding of
    - [resolveState] and the status indicator of [ComputeLogToolbar]
      (runs/LogsToolbar.tsx),
    - the render callback of [AssetGraphExplorer], the part of
      [AssetGraphExplorerWithData] that computes layout and statuses, and
      [opsInRange] (workspace/asset-graph/AssetGraphExplorer.tsx).

    JavaScript objects used as dictionaries are finite maps ([gmap]) from
    strings; the key sets that the code enumerates with [Object.keys] are
    lists in enumeration order.  A property read on [undefined] raises a
    [TypeError], which is kept explicit in the type of results. *)

From Stdlib Require Import Ascii String.
From stdpp Require Import gmap strings list fin_maps pretty.

(* String literals are read as strings; [++], [length] and comparisons
   keep their list and number meaning. *)
Open Scope string_scope.
Open Scope list_scope.
Open Scope nat_scope.

(** ** Completions: a JavaScript evaluation returns a value or throws *)

Inductive completion (A : Type) : Type :=
  | Returns (a : A)
  | Throws_TypeError.
Arguments Returns {A} a.
Arguments Throws_TypeError {A}.

(** Sequencing: an exception in [c] skips the rest.  With this instance
    stdpp's [x ← c; k] reads like the statements of the source. *)
#[global] Instance completion_bind : MBind completion :=
  λ A B k c,
    match c with
    | Returns a => k a
    | Throws_TypeError => Throws_TypeError
    end.

(** ** Property reads on plain objects *)

(** The names that every plain object inherits from [Object.prototype]. *)
Definition object_prototype_members : list string :=
  ["constructor"; "hasOwnProperty"; "isPrototypeOf"; "propertyIsEnumerable";
   "toLocaleString"; "toString"; "valueOf"; "__proto__";
   "__defineGetter__"; "__defineSetter__"; "__lookupGetter__"; "__lookupSetter__"].

(** What [obj[key]] finds in a plain object with own entries [m]: the own
    entry, else the member inherited under that name (a function, or the
    prototype itself for [__proto__]; truthy, and without any of the fields
    of an entry), else nothing ([undefined]). *)
Inductive js_property (V : Type) : Type :=
  | own_property (v : V)
  | inherited_property
  | no_property.
Arguments own_property {V} v.
Arguments inherited_property {V}.
Arguments no_property {V}.

Definition js_get {V : Type} (m : gmap string V) (key : string) : js_property V :=
  match m !! key with
  | Some v => own_property v
  | None =>
      if bool_decide (key ∈ object_prototype_members) then inherited_property
      else no_property
  end.

(** [obj[key].field] : the field of an own entry; [undefined] ([None])
    when [obj[key]] is an inherited member, which has no such field; a
    [TypeError] when [obj[key]] is [undefined]. *)
Definition read_entry {V F : Type} (m : gmap string V) (key : string) (field : V → F)
  : completion (option F) :=
  match js_get m key with
  | own_property v => Returns (Some (field v))
  | inherited_property => Returns None
  | no_property => Throws_TypeError
  end.

(** [Array.prototype.some] and [Array.prototype.every] with a callback that
    may throw: elements are visited in order and the visit stops at the
    first element that decides the answer. *)
Fixpoint array_some {A : Type} (p : A → completion bool) (l : list A) : completion bool :=
  match l with
  | [] => Returns false
  | x :: l' => b ← p x; if b : bool then Returns true else array_some p l'
  end.

Fixpoint array_every {A : Type} (p : A → completion bool) (l : list A) : completion bool :=
  match l with
  | [] => Returns true
  | x :: l' => b ← p x; if b : bool then array_every p l' else Returns false
  end.

(** ** runs/LogsToolbar.tsx *)

Module LogsToolbar.

(** Modelled from the spec: the enum [IStepState] is declared in
    runs/RunMetadataProvider, which is not part of the sources; the spec
    gives ExecutionState as the closed set of the four members that
    [resolveState] names. *)
Inductive IStepState : Type := RUNNING | SKIPPED | SUCCEEDED | FAILED.

#[global] Instance IStepState_eq_dec : EqDecision IStepState.
Proof. solve_decision. Defined.

(** The entries of [metadata.steps]; only [state] is read here. *)
Record IStepMetadata : Type := { state : IStepState }.

Record ILogCaptureInfo : Type := {
  stepKeys : list string;
  pid : option string
}.

Record IRunMetadataDict : Type := {
  steps : gmap string IStepMetadata;
  logCaptureSteps : option (gmap string ILogCaptureInfo)
}.

(** The callback [(stepKey) => metadata.steps[stepKey].state === s]. *)
Definition step_is (metadata : IRunMetadataDict) (s : IStepState) (stepKey : string)
  : completion bool :=
  found ← read_entry (steps metadata) stepKey state; Returns (bool_decide (found = Some s)).

Definition resolveState (metadata : IRunMetadataDict) (logCapture : ILogCaptureInfo)
  : completion IStepState :=
  r ← array_some (step_is metadata RUNNING) (stepKeys logCapture);
  if r : bool then Returns RUNNING else
  k ← array_some (step_is metadata SKIPPED) (stepKeys logCapture);
  if k : bool then Returns SKIPPED else
  a ← array_every (step_is metadata SUCCEEDED) (stepKeys logCapture);
  if a : bool then Returns SUCCEEDED else
  Returns FAILED.


Section ComputeLogToolbar.

(** [extractLogCaptureStepsFromLegacySteps] lives in RunMetadataProvider
    and is taken as given. *)
Variable extractLogCaptureStepsFromLegacySteps :
  list string → gmap string ILogCaptureInfo.

Definition logCaptureSteps_of (metadata : IRunMetadataDict) : gmap string ILogCaptureInfo :=
  match logCaptureSteps metadata with
  | Some groups => groups
  | None => extractLogCaptureStepsFromLegacySteps (map fst (map_to_list (steps metadata)))
  end.

(** [computeLogKey && logCaptureSteps[computeLogKey]] : an absent or
    empty key is falsy, and so is a key without a group. *)
Definition selected_group (metadata : IRunMetadataDict) (computeLogKey : option string)
  : option ILogCaptureInfo :=
  match computeLogKey with
  | None => None
  | Some key => if decide (key = "") then None else logCaptureSteps_of metadata !! key
  end.


End ComputeLogToolbar.

End LogsToolbar.

(** ** workspace/asset-graph/AssetGraphExplorer.tsx *)

Module AssetGraphExplorer.

(** Modelled from the spec: the types [Node] and [GraphData] are declared
    in ./Utils, which is not part of the sources.  A node has an id, a
    definition with (among others) an op name and a job name, both
    nullable in the query, and a hidden flag; the records below keep the
    fields that the explorer reads. *)
Record AssetNodeDefinition : Type := {
  opName : option string;
  jobName : option string
}.

Record Node : Type := {
  id : string;
  definition : AssetNodeDefinition;
  hidden : bool
}.

(** Modelled from the spec: a graph maps node ids to nodes, to their
    upstream neighbours and to their downstream neighbours.
    [upstream[a]] and [downstream[a]] are objects whose keys are node ids;
    the explorer only enumerates them with [Object.keys], so each is kept
    as the list of its keys in enumeration order. *)
Record GraphData : Type := {
  nodes : gmap string Node;
  downstream : gmap string (list string);
  upstream : gmap string (list string)
}.

(** A sequence of op names as [opsInRange] returns it; the non-null
    assertion [opName!] does nothing at run time, so an element may be
    null. *)
Abbreviation ops := (list (option string)).

(** A search that may run out of fuel ([None]), throw or return. *)
Abbreviation search := (option (completion ops)).

(** [Object.keys(o || {})] *)
Definition keys_or_empty (o : option (list string)) : list string := default [] o.

(** [[...Object.keys(graph.upstream[from.id] || {}),
      ...Object.keys(graph.downstream[from.id] || {})].map((n) => graph.nodes[n])] *)
Definition adjacent (graph : GraphData) (from : Node) : list (option Node) :=
  (λ n, nodes graph !! n) <$>
    (keys_or_empty (upstream graph !! id from) ++ keys_or_empty (downstream graph !! id from)).

(** [result.length && (best.length === 0 || result.length < best.length)] *)
Definition improves (result best : ops) : bool :=
  negb (length result =? 0) && ((length best =? 0) || (length result <? length best)).

(** The [for (const node of adjacent)] loop, with [best] as loop state and
    [rec node] standing for the recursive call
    [opsInRange({graph, from: node, to}, [...seen, from.id])].
    Reading [node.id] of an unresolved neighbour throws. *)
Fixpoint for_adjacent (rec : Node → search) (from : Node) (seen : list string)
    (adj : list (option Node)) (best : ops) : search :=
  match adj with
  | [] => Some (Returns best)
  | None :: _ => Some Throws_TypeError
  | Some node :: rest =>
      if bool_decide (id node ∈ seen) then for_adjacent rec from seen rest best
      else
        match rec node with
        | None => None
        | Some Throws_TypeError => Some Throws_TypeError
        | Some (Returns result) =>
            if improves result best
            then for_adjacent rec from seen rest (opName (definition from) :: result)
            else for_adjacent rec from seen rest best
        end
  end.

(** The body of [opsInRange], open in its recursive call. *)
Definition opsInRange_body (rec : Node → list string → search)
    (graph : GraphData) (from : option Node) (to : Node) (seen : list string) : search :=
  match from with
  | None => Some (Returns [])
  | Some from =>
      if decide (id from = id to) then Some (Returns [opName (definition to)])
      else for_adjacent (λ node, rec node (seen ++ [id from])) from seen (adjacent graph from) []
  end.

Fixpoint opsInRange_fuel (fuel : nat) (graph : GraphData) (from : option Node) (to : Node)
    (seen : list string) : search :=
  match fuel with
  | 0 => None
  | S fuel' =>
      opsInRange_body (λ node seen', opsInRange_fuel fuel' graph (Some node) to seen')
        graph from to seen
  end.

(** Recursion depth never exceeds twice the number of nodes plus one. *)
Definition search_fuel (graph : GraphData) : nat := 2 * size (nodes graph) + 2.

(** [opsInRange({graph, from, to}, seen)] *)
Definition opsInRange_seen (graph : GraphData) (from : option Node) (to : Node)
    (seen : list string) : search :=
  opsInRange_fuel (search_fuel graph) graph from to seen.

(** [opsInRange({graph, from, to})], with the default [seen = []]. *)
Definition opsInRange (graph : GraphData) (from : option Node) (to : Node) : search :=
  opsInRange_seen graph from to [].

(** *** Selection handling: [onSelectNode] *)

Record MouseEvent : Type := { shiftKey : bool; metaKey : bool }.

(** The fields of the explorer path that [onSelectNode] reads or writes;
    the spread [...explorerPath] carries every other field over. *)
Record PipelineExplorerPath : Type := {
  pipelineName : string;
  solidsQuery : string;
  pathSolids : list string
}.

(** [s.split(',')] *)
Fixpoint split_comma (s : string) : list string :=
  match s with
  | EmptyString => [""]
  | String c s' =>
      if decide (c = ","%char) then "" :: split_comma s'
      else match split_comma s' with
           | piece :: pieces => String c piece :: pieces
           | [] => [String c ""]
           end
  end.

(** lodash [uniq]: the first occurrence of every element, in order. *)
Fixpoint uniq_from {A : Type} `{EqDecision A} (kept : list A) (l : list A) : list A :=
  match l with
  | [] => []
  | x :: l' => if bool_decide (x ∈ kept) then uniq_from kept l' else x :: uniq_from (x :: kept) l'
  end.
Definition uniq {A : Type} `{EqDecision A} (l : list A) : list A := uniq_from [] l.

(** lodash [without(array, value)] *)
Definition without {A : Type} `{EqDecision A} (l : list A) (x : A) : list A :=
  filter (λ y, y ≠ x) l.

(** [array.join(',')]; a null element is written as the empty string. *)
Definition join_comma (l : list (option string)) : string :=
  String.concat "," (map (default "") l).

(** A string-or-null value is falsy when it is null or empty. *)
Definition truthy (s : option string) : bool :=
  match s with
  | Some s' => negb (bool_decide (s' = ""))
  | None => false
  end.

(** The click handler of a node.  [None] inside the completion: the
    handler returned before calling [onChangeExplorerPath]; otherwise the
    path it passes on (always with mode ['replace']). *)
Definition onSelectNode (graphData : GraphData) (explorerPath : PipelineExplorerPath)
    (selectedGraphNode : option Node) (e : MouseEvent) (node : Node)
  : option (completion (option PipelineExplorerPath)) :=
  match opName (definition node) with
  | None => Some (Returns None)
  | Some op =>
      if bool_decide (op = "") then Some (Returns None) else
      let append :=
        bool_decide (jobName (definition node) = Some (pipelineName explorerPath))
        && (shiftKey e || metaKey e) in
      let existing := Some <$> split_comma (solidsQuery explorerPath) in
      let added :=
        match selectedGraphNode with
        | Some _ =>
            if shiftKey e then opsInRange graphData selectedGraphNode node
            else Some (Returns [Some op])
        | None => Some (Returns [Some op])
        end in
      match added with
      | None => None
      | Some Throws_TypeError => Some Throws_TypeError
      | Some (Returns added) =>
          let next :=
            if append
            then join_comma (if bool_decide (Some op ∈ existing)
                             then without existing (Some op)
                             else uniq (existing ++ added))
            else op in
          Some (Returns (Some {|
            pipelineName := if truthy (jobName (definition node))
                            then default "" (jobName (definition node))
                            else pipelineName explorerPath;
            solidsQuery := next;
            pathSolids := [op] |}))
      end
  end.

(** *** Rendering: [AssetGraphExplorer] and [AssetGraphExplorerWithData] *)

(** The functions of ./Utils that the bodies of the two components call.
    ([buildSVGPath] is not among them: it is called, once for every edge
    of the layout, inside the function that the graph view hands to
    [SVGViewport] as its child, when the viewport calls that function.) *)
Inductive UtilsCall : Type :=
  | call_buildGraphData
  | call_graphHasCycles
  | call_layoutGraph
  | call_buildGraphComputeStatuses.

(** A run of a component body yields a value and the calls into ./Utils
    it made, oldest first. *)
Definition traced (A : Type) : Type := A * list UtilsCall.

#[global] Instance traced_ret : MRet traced := λ A a, (a, []).
#[global] Instance traced_bind : MBind traced :=
  λ A B k c, let r := k c.1 in (r.1, c.2 ++ r.2).

Definition calling {A : Type} (c : UtilsCall) (a : A) : traced A := (a, [c]).

(** What the explorer shows: a [NonIdealState] placard, or the graph with
    its layout, the compute statuses and [onClickNode], the callback that
    this run creates and passes to [useCallback] (React keeps the callback
    of an earlier run for the nodes as long as [explorerPath] and
    [onChangeExplorerPath] are the same objects). *)
Inductive View (LayoutResult ComputeStatuses : Type) : Type :=
  | NonIdealState (icon title : string) (description : option string)
  | GraphView (layout : LayoutResult) (computeStatuses : ComputeStatuses)
      (onClickNode : MouseEvent → Node → option (completion (option PipelineExplorerPath))).
Arguments NonIdealState {LayoutResult ComputeStatuses} icon title description.
Arguments GraphView {LayoutResult ComputeStatuses} layout computeStatuses onClickNode.

(** The answer of the query: a repository, or another [__typename]. *)
Inductive RepositoryOrError (Repository : Type) : Type :=
  | IsRepository (r : Repository)
  | OtherTypename.
Arguments IsRepository {Repository} r.
Arguments OtherTypename {Repository}.

Record Props : Type := {
  explorerPath : PipelineExplorerPath;
  (** the node of [graphData.nodes] found for [selectedHandle], if any *)
  selectedGraphNode : option Node
}.

Section Explorer.

(** ./Utils is not part of the sources: its functions are taken as
    given, over arbitrary types of repositories, layouts and compute
    statuses. *)
Context {Repository LayoutResult ComputeStatuses : Type}.
Variable buildGraphData : Repository → string → GraphData.
Variable graphHasCycles : GraphData → bool.
Variable layoutGraph : GraphData → LayoutResult.
Variable buildGraphComputeStatuses : GraphData → ComputeStatuses.

Definition AssetGraphExplorerWithData (graphData : GraphData) (props : Props)
  : traced (View LayoutResult ComputeStatuses) :=
  layout ← calling call_layoutGraph (layoutGraph graphData);
  computeStatuses ← calling call_buildGraphComputeStatuses (buildGraphComputeStatuses graphData);
  mret (GraphView layout computeStatuses
          (onSelectNode graphData (explorerPath props) (selectedGraphNode props))).

(** From [graphData] on: the cycle gate, the empty gate, the graph. *)
Definition explore (graphData : GraphData) (props : Props)
  : traced (View LayoutResult ComputeStatuses) :=
  cyclic ← calling call_graphHasCycles (graphHasCycles graphData);
  if cyclic : bool then
    mret (NonIdealState "error" "Cycle detected" (Some "Assets dependencies form a cycle"))
  else if bool_decide (size (nodes graphData) = 0) then
    mret (NonIdealState "no-results" "No assets defined"
            (Some "No assets defined using the @asset definition"))
  else AssetGraphExplorerWithData graphData props.

(** The render callback under [Loading]. *)
Definition AssetGraphExplorer (repositoryOrError : RepositoryOrError Repository)
    (props : Props) : traced (View LayoutResult ComputeStatuses) :=
  match repositoryOrError with
  | OtherTypename => mret (NonIdealState "error" "Query Error" None)
  | IsRepository repository =>
      graphData ← calling call_buildGraphData
                    (buildGraphData repository (pipelineName (explorerPath props)));
      explore graphData props
  end.

End Explorer.

End AssetGraphExplorer.

(** * Vocabulary of the statements *)

Import LogsToolbar AssetGraphExplorer.

(** [metadata.steps[key]] is [undefined]: no entry under the key, and no
    inherited member of that name either. *)
Definition unreadable (metadata : IRunMetadataDict) (key : string) : Prop :=
  js_get (steps metadata) key = no_property.

(** [sts] lists the states of the steps of [logCapture], in the order of
    its step keys; it exists exactly when every step key has an entry in
    [metadata.steps]. *)
Definition group_states (metadata : IRunMetadataDict) (logCapture : ILogCaptureInfo)
    (sts : list IStepState) : Prop :=
  Forall2 (λ key s, state <$> steps metadata !! key = Some s) (stepKeys logCapture) sts.

(** The keys that [opsInRange] enumerates at the node with id [a]:
    upstream first, then downstream. *)
Definition neighbour_keys (graph : GraphData) (a : string) : list string :=
  keys_or_empty (upstream graph !! a) ++ keys_or_empty (downstream graph !! a).

(** [b] is the node behind an upstream or downstream key of [a]. *)
Definition neighbour (graph : GraphData) (a b : Node) : Prop :=
  ∃ n, n ∈ neighbour_keys graph (id a) ∧ nodes graph !! n = Some b.

(** The search as a sequence of nodes: from a node with the id of the
    target the sequence is the target alone; from any other node it is
    that node followed by the sequence from one of its neighbours. *)
Inductive trail (graph : GraphData) (to : Node) : Node → list Node → Prop :=
  | trail_end (x : Node) : id x = id to → trail graph to x [to]
  | trail_step (x y : Node) (p : list Node) :
      id x ≠ id to → neighbour graph x y → trail graph to y p →
      trail graph to x (x :: p).

(** The same adjacency on ids. *)
Definition linked (graph : GraphData) (a b : string) : Prop :=
  ∃ n node, n ∈ neighbour_keys graph a ∧ nodes graph !! n = Some node ∧ id node = b.

(** A non-empty sequence of ids, each linked to the one before. *)
Inductive walk (graph : GraphData) : list string → Prop :=
  | walk_end (a : string) : walk graph [a]
  | walk_step (a b : string) (p : list string) :
      linked graph a b → walk graph (b :: p) → walk graph (a :: b :: p).

(** The components of the undirected closure of the adjacency. *)
Definition connected (graph : GraphData) : relation string :=
  rtc (λ a b, linked graph a b ∨ linked graph b a).

(** Invariant of [GraphData]: every id in the upstream and downstream
    mappings is the key of a node. *)
Definition adjacency_resolved (graph : GraphData) : Prop :=
  ∀ a n, n ∈ neighbour_keys graph a → is_Some (nodes graph !! n).

(** The op names along a sequence of nodes. *)
Definition op_names (p : list Node) : ops := (λ x, opName (definition x)) <$> p.

(** Termination measure of the search: twice the number of node ids not
    yet on the path, plus one when the current node is on the path already
    (it was reached through a self-loop) or is not a node of the graph. *)
Definition node_ids (graph : GraphData) : list string :=
  (λ kv, id kv.2) <$> map_to_list (nodes graph).

Definition unseen (graph : GraphData) (seen : list string) : nat :=
  length (filter (λ i, i ∉ seen) (node_ids graph)).

Definition depth_left (graph : GraphData) (x : Node) (seen : list string) : nat :=
  2 * unseen graph seen
  + (if bool_decide (id x ∈ node_ids graph ∧ id x ∉ seen) then 0 else 1).

(** The linear chain a → b → c: [a] is upstream of [b], [b] of [c]. *)
Definition chain_graph (a b c : Node) : GraphData := {|
  nodes := <[id a := a]> (<[id b := b]> (<[id c := c]> ∅));
  downstream := <[id a := [id b]]> (<[id b := [id c]]> ∅);
  upstream := <[id b := [id a]]> (<[id c := [id b]]> ∅)
|}.

(** Two nodes and no edge. *)
Definition two_islands (a b : Node) : GraphData := {|
  nodes := <[id a := a]> (<[id b := b]> ∅);
  downstream := ∅;
  upstream := ∅
|}.

(** Concrete data for the examples. *)
Definition node_of (i op : string) : Node :=
  {| id := i; definition := {| opName := Some op; jobName := Some "job" |}; hidden := false |}.

Definition node_A : Node := node_of "a" "A".
Definition node_B : Node := node_of "b" "B".
Definition node_C : Node := node_of "c" "C".

Definition some_props : Props := {|
  explorerPath := {| pipelineName := "job"; solidsQuery := ""; pathSolids := [] |};
  selectedGraphNode := None
|}.

(** The cycle a → b → c → a, and the graph without nodes. *)
Definition cycle_graph : GraphData := {|
  nodes := <["a" := node_A]> (<["b" := node_B]> (<["c" := node_C]> ∅));
  downstream := <["a" := ["b"]]> (<["b" := ["c"]]> (<["c" := ["a"]]> ∅));
  upstream := <["b" := ["a"]]> (<["c" := ["b"]]> (<["a" := ["c"]]> ∅))
|}.

Definition node_D : Node := node_of "d" "D".

(** a → b → c → d with the shortcut a → c. *)
Definition shortcut_graph : GraphData := {|
  nodes := <["a" := node_A]> (<["b" := node_B]> (<["c" := node_C]> (<["d" := node_D]> ∅)));
  downstream := <["a" := ["b"; "c"]]> (<["b" := ["c"]]> (<["c" := ["d"]]> ∅));
  upstream := <["b" := ["a"]]> (<["c" := ["b"; "a"]]> (<["d" := ["c"]]> ∅))
|}.

(** The diamond a → b → d, a → c → d. *)
Definition diamond_graph : GraphData := {|
  nodes := <["a" := node_A]> (<["b" := node_B]> (<["c" := node_C]> (<["d" := node_D]> ∅)));
  downstream := <["a" := ["b"; "c"]]> (<["b" := ["d"]]> (<["c" := ["d"]]> ∅));
  upstream := <["b" := ["a"]]> (<["c" := ["a"]]> (<["d" := ["b"; "c"]]> ∅))
|}.

(** a → b, with [a] also downstream of itself. *)
Definition self_loop_graph : GraphData := {|
  nodes := <["a" := node_A]> (<["b" := node_B]> ∅);
  downstream := <["a" := ["a"; "b"]]> ∅;
  upstream := <["a" := ["a"]]> (<["b" := ["a"]]> ∅)
|}.

(** [a] depends on an asset that has no node. *)
Definition dangling_graph : GraphData := {|
  nodes := <["a" := node_A]> (<["b" := node_B]> ∅);
  downstream := ∅;
  upstream := <["a" := ["x"]]> ∅
|}.

Definition no_assets : GraphData := {| nodes := ∅; downstream := ∅; upstream := ∅ |}.


Definition no_metadata : IRunMetadataDict := {| steps := ∅; logCaptureSteps := None |}.

(** * Further parts of the sources *)

(** ** runs/LogsToolbar.tsx: the controls of the two toolbars *)

Module LogsToolbarControls.

(** [s.split(sep)] for a separator of one character. *)
Fixpoint split_at (sep : ascii) (s : string) : list string :=
  match s with
  | EmptyString => [""]
  | String c s' =>
      if decide (c = sep) then "" :: split_at sep s'
      else match split_at sep s' with
           | piece :: pieces => String c piece :: pieces
           | [] => [String c ""]
           end
  end.

(** An entry of [filter.logQuery]: [{token?: string, value: string}]. *)
Record LogFilterValue : Type := {
  token : option string;
  value : string
}.

(** The fields of [LogFilter] that the toolbar reads or writes; the
    spread [...filter] carries every other field over. *)
Record LogFilter : Type := {
  logQuery : list LogFilterValue;
  levels : gmap string bool;
  hideNonMatches : bool
}.

(** [({token, value}) => (token ? `${token}:${value}` : value)] *)
Definition print_value (v : LogFilterValue) : string :=
  if truthy (token v) then default "" (token v) +:+ ":" +:+ value v else value v.

Definition logQueryToString (logQuery : list LogFilterValue) : string :=
  String.concat " " (print_value <$> logQuery).

(** The callback of [tokens.map] in [onChange].  [split] never returns an
    empty array, so the last case does not occur. *)
Definition parse_item (item : string) : LogFilterValue :=
  match split_at ":" item with
  | first :: second :: _ => {| token := Some first; value := second |}
  | [only] => {| token := None; value := only |}
  | [] => {| token := None; value := "" |}
  end.

(** The filter that [onChange] passes to [onSetFilter], from the tokens
    of the typed text. *)
Definition onChange (filter : LogFilter) (tokens : list string) : LogFilter :=
  {| logQuery := parse_item <$> tokens;
     levels := levels filter;
     hideNonMatches := hideNonMatches filter |}.

(** [filter.logQuery.find((v) => v.token === 'step')?.value || null] *)
Definition selectedStep (filter : LogFilter) : option string :=
  match List.find (λ v, bool_decide (token v = Some "step")) (logQuery filter) with
  | Some v => if bool_decide (value v = "") then None else Some (value v)
  | None => None
  end.

(** [filter.logQuery.reduce((accum, value) => accum + value.value, '')] *)
Definition filterText (filter : LogFilter) : string :=
  foldl (λ accum v, accum +:+ value v) "" (logQuery filter).

(** The "Hide non-matches" checkbox is rendered when [filterText] is
    truthy. *)
Definition shows_hide_non_matches (filter : LogFilter) : bool :=
  negb (bool_decide (filterText filter = "")).

(** [filter.levels[level]], falsy when the level has no entry. *)
Definition level_enabled (filter : LogFilter) (level : string) : bool :=
  default false (levels filter !! level).

(** The click handler of a level button:
    [{...filter, levels: {...filter.levels, [level]: !enabled}}]. *)
Definition toggle_level (filter : LogFilter) (level : string) : LogFilter :=
  {| logQuery := logQuery filter;
     levels := <[level := negb (level_enabled filter level)]> (levels filter);
     hideNonMatches := hideNonMatches filter |}.

(** [logKeyText] of [ComputeLogToolbar]; [null] is [None].  A key that
    names an inherited member and has no group passes the first test and
    then throws at [captureInfo.stepKeys.length]. *)
Definition logKeyText (logCaptureSteps : gmap string ILogCaptureInfo)
    (logKey : option string) : completion (option string) :=
  match logKey with
  | None => Returns None
  | Some key =>
      if bool_decide (key = "") then Returns None else
      match js_get logCaptureSteps key with
      | no_property => Returns None
      | inherited_property => Throws_TypeError
      | own_property captureInfo =>
          if bool_decide (length (stepKeys captureInfo) = 1)
             && bool_decide (head (stepKeys captureInfo) = Some key)
          then Returns (Some key)
          else if truthy (pid captureInfo)
          then Returns (Some ("pid: " +:+ default "" (pid captureInfo) +:+ " ("
                              +:+ pretty (length (stepKeys captureInfo)) +:+ " steps)"))
          else Returns (Some (key +:+ " ("
                              +:+ pretty (length (stepKeys captureInfo)) +:+ " steps)"))
      end
  end.

(** The text of the step button: [logKeyText(computeLogKey) || 'Select a step...']. *)
Definition stepButtonText (logCaptureSteps : gmap string ILogCaptureInfo)
    (computeLogKey : option string) : completion string :=
  text ← logKeyText logCaptureSteps computeLogKey;
  match text with
  | Some text => if bool_decide (text = "") then Returns "Select a step..." else Returns text
  | None => Returns "Select a step..."
  end.

End LogsToolbarControls.

(** ** The telemetry component (a source file whose name is not known) *)

Module Telemetry.

Definition TELEMETRY_BROWSER_ID : string := "TELEMETRY_BROWSER_ID".

(** [getTelemetryBrowserId], with [localStorage] as state: [getItem] gives
    null for a missing key, and a null or empty id is replaced.  The id
    that the two [Math.random()] draws produce is the input [generated];
    it is consulted only when an id has to be made. *)
Definition getTelemetryBrowserId (generated : string) (localStorage : gmap string string)
  : string * gmap string string :=
  match localStorage !! TELEMETRY_BROWSER_ID with
  | Some telemetryId =>
      if bool_decide (telemetryId = "")
      then (generated, <[TELEMETRY_BROWSER_ID := generated]> localStorage)
      else (telemetryId, localStorage)
  | None => (generated, <[TELEMETRY_BROWSER_ID := generated]> localStorage)
  end.

End Telemetry.

(** ** More vocabulary *)

Import LogsToolbarControls.

(** The click extends the selection rather than replacing it:
    [jobName === explorerPath.pipelineName && (e.shiftKey || e.metaKey)]. *)
Definition appends (explorerPath : PipelineExplorerPath) (e : MouseEvent) (node : Node) : bool :=
  bool_decide (jobName (definition node) = Some (pipelineName explorerPath))
  && (shiftKey e || metaKey e).

(** The click runs the path search: [e.shiftKey && selectedGraphNode]. *)
Definition searches (selected : option Node) (e : MouseEvent) : bool :=
  shiftKey e && bool_decide (is_Some selected).

(** The path that a click on a node with op name [op] reports when the
    click adds the op names [added]. *)
Definition reported_path (path : PipelineExplorerPath) (e : MouseEvent) (node : Node)
    (op : string) (added : ops) : PipelineExplorerPath :=
  {| pipelineName := if truthy (jobName (definition node))
                     then default "" (jobName (definition node))
                     else pipelineName path;
     solidsQuery :=
       if appends path e node
       then join_comma (if bool_decide (Some op ∈ Some <$> split_comma (solidsQuery path))
                        then without (Some <$> split_comma (solidsQuery path)) (Some op)
                        else uniq ((Some <$> split_comma (solidsQuery path)) ++ added))
       else op;
     pathSolids := [op] |}.

(** No occurrence of the character in the string. *)
Fixpoint lacks (sep : ascii) (s : string) : Prop :=
  match s with
  | EmptyString => True
  | String c s' => c ≠ sep ∧ lacks sep s'
  end.

(** A typed item that [parse_item] and [print_value] give back: no colon,
    or one colon after a non-empty token. *)
Definition plain_item (item : string) : Prop :=
  lacks ":" item ∨
  ∃ name text, name ≠ "" ∧ lacks ":" name ∧ lacks ":" text ∧ item = name +:+ ":" +:+ text.

(** * Properties *)

(** ** Status roll-up of a log-capture group *)

Section StatusRollUp.
Lemma step_is_known metadata s key s' :
  state <$> steps metadata !! key = Some s' →
  step_is metadata s key = Returns (bool_decide (s' = s)).
Proof.
  unfold step_is, read_entry, js_get.
  destruct (steps metadata !! key) as [m|]; simpl; [|done].
  intros [= <-]. f_equal. apply bool_decide_ext. split; congruence.
Qed.

Lemma array_some_step_is metadata s keys sts :
  Forall2 (λ key s', state <$> steps metadata !! key = Some s') keys sts →
  array_some (step_is metadata s) keys = Returns (bool_decide (s ∈ sts)).
Proof.
  induction 1 as [|key s' keys sts Hkey _ IH]; cbn [array_some].
  - rewrite bool_decide_eq_false_2; [done | apply not_elem_of_nil].
  - rewrite (step_is_known _ _ _ _ Hkey). cbn [mbind completion_bind].
    destruct (decide (s' = s)) as [->|Hne].
    + rewrite !bool_decide_eq_true_2; [done | left | done].
    + rewrite (bool_decide_eq_false_2 (s' = s)) by done. rewrite IH. f_equal.
      apply bool_decide_ext. rewrite elem_of_cons. intuition congruence.
Qed.

Lemma array_every_step_is metadata s keys sts :
  Forall2 (λ key s', state <$> steps metadata !! key = Some s') keys sts →
  array_every (step_is metadata s) keys = Returns (bool_decide (Forall (λ s', s' = s) sts)).
Proof.
  induction 1 as [|key s' keys sts Hkey _ IH]; cbn [array_every].
  - rewrite bool_decide_eq_true_2; [done | constructor].
  - rewrite (step_is_known _ _ _ _ Hkey). cbn [mbind completion_bind].
    destruct (decide (s' = s)) as [->|Hne].
    + rewrite (bool_decide_eq_true_2 (s = s)) by done. rewrite IH. f_equal.
      apply bool_decide_ext. rewrite Forall_cons. intuition.
    + rewrite !bool_decide_eq_false_2; [done | rewrite Forall_cons; intuition | done].
Qed.

(** The roll-up as a function of the list of states. *)
Lemma resolveState_states metadata logCapture sts :
  group_states metadata logCapture sts →
  resolveState metadata logCapture =
    Returns (if bool_decide (RUNNING ∈ sts) then RUNNING
             else if bool_decide (SKIPPED ∈ sts) then SKIPPED
             else if bool_decide (Forall (λ s, s = SUCCEEDED) sts) then SUCCEEDED
             else FAILED).
Proof.
  intros Hsts. unfold resolveState.
  rewrite (array_some_step_is _ RUNNING _ _ Hsts), (array_some_step_is _ SKIPPED _ _ Hsts),
    (array_every_step_is _ SUCCEEDED _ _ Hsts).
  cbn [mbind completion_bind].
  destruct (bool_decide (RUNNING ∈ sts)); [done|].
  destruct (bool_decide (SKIPPED ∈ sts)); [done|].
  by destruct (bool_decide _).
Qed.



(** C1. For a log-capture group with at least one step, every step of
    which has an entry in the metadata, [resolveState] follows the
    first-match priority order: RUNNING if any step is RUNNING; otherwise
    SKIPPED if any step is SKIPPED; otherwise SUCCEEDED if all steps are
    SUCCEEDED; otherwise FAILED.  In particular {RUNNING, FAILED} gives
    RUNNING, {SKIPPED, SUCCEEDED} gives SKIPPED, {SUCCEEDED, SUCCEEDED}
    gives SUCCEEDED and {SUCCEEDED, FAILED} gives FAILED, in whatever
    order the steps are listed. *)
Theorem resolveState_priority_order metadata logCapture sts :
  stepKeys logCapture ≠ [] →
  group_states metadata logCapture sts →
  let result := resolveState metadata logCapture in
  (RUNNING ∈ sts → result = Returns RUNNING) ∧
  (RUNNING ∉ sts → SKIPPED ∈ sts → result = Returns SKIPPED) ∧
  (RUNNING ∉ sts → SKIPPED ∉ sts → Forall (λ s, s = SUCCEEDED) sts →
     result = Returns SUCCEEDED) ∧
  (RUNNING ∉ sts → SKIPPED ∉ sts → ¬ Forall (λ s, s = SUCCEEDED) sts →
     result = Returns FAILED) ∧
  (sts ≡ₚ [RUNNING; FAILED] → result = Returns RUNNING) ∧
  (sts ≡ₚ [SKIPPED; SUCCEEDED] → result = Returns SKIPPED) ∧
  (sts ≡ₚ [SUCCEEDED; SUCCEEDED] → result = Returns SUCCEEDED) ∧
  (sts ≡ₚ [SUCCEEDED; FAILED] → result = Returns FAILED).
Proof.
  intros _ Hsts result. subst result. rewrite (resolveState_states _ _ _ Hsts).
  assert (Hrun : RUNNING ∈ sts →
    (if bool_decide (RUNNING ∈ sts) then RUNNING
     else if bool_decide (SKIPPED ∈ sts) then SKIPPED
     else if bool_decide (Forall (λ s, s = SUCCEEDED) sts) then SUCCEEDED else FAILED)
    = RUNNING).
  { intros H. by rewrite bool_decide_eq_true_2. }
  assert (Hskip : RUNNING ∉ sts → SKIPPED ∈ sts →
    (if bool_decide (RUNNING ∈ sts) then RUNNING
     else if bool_decide (SKIPPED ∈ sts) then SKIPPED
     else if bool_decide (Forall (λ s, s = SUCCEEDED) sts) then SUCCEEDED else FAILED)
    = SKIPPED).
  { intros H1 H2. rewrite bool_decide_eq_false_2 by done. by rewrite bool_decide_eq_true_2. }
  assert (Hsucc : RUNNING ∉ sts → SKIPPED ∉ sts → Forall (λ s, s = SUCCEEDED) sts →
    (if bool_decide (RUNNING ∈ sts) then RUNNING
     else if bool_decide (SKIPPED ∈ sts) then SKIPPED
     else if bool_decide (Forall (λ s, s = SUCCEEDED) sts) then SUCCEEDED else FAILED)
    = SUCCEEDED).
  { intros H1 H2 H3. rewrite !bool_decide_eq_false_2 by done.
    by rewrite bool_decide_eq_true_2. }
  assert (Hfail : RUNNING ∉ sts → SKIPPED ∉ sts → ¬ Forall (λ s, s = SUCCEEDED) sts →
    (if bool_decide (RUNNING ∈ sts) then RUNNING
     else if bool_decide (SKIPPED ∈ sts) then SKIPPED
     else if bool_decide (Forall (λ s, s = SUCCEEDED) sts) then SUCCEEDED else FAILED)
    = FAILED).
  { intros H1 H2 H3. by rewrite !bool_decide_eq_false_2. }
  repeat split.
  - intros H. f_equal. auto.
  - intros H1 H2. f_equal. auto.
  - intros H1 H2 H3. f_equal. auto.
  - intros H1 H2 H3. f_equal. auto.
  - intros Hp. f_equal. apply Hrun. rewrite Hp. left.
  - intros Hp. f_equal. apply Hskip; rewrite Hp.
    + rewrite !elem_of_cons, elem_of_nil. intuition discriminate.
    + left.
  - intros Hp. f_equal. apply Hsucc; rewrite Hp.
    + rewrite !elem_of_cons, elem_of_nil. intuition discriminate.
    + rewrite !elem_of_cons, elem_of_nil. intuition discriminate.
    + repeat constructor.
  - intros Hp. f_equal. apply Hfail; rewrite Hp.
    + rewrite !elem_of_cons, elem_of_nil. intuition discriminate.
    + rewrite !elem_of_cons, elem_of_nil. intuition discriminate.
    + rewrite !Forall_cons. intuition discriminate.
Qed.


End StatusRollUp.

(** A running step next to a failed one. *)
Lemma resolveState_priority_order_witness :
  stepKeys {| stepKeys := ["a"; "b"]; pid := None |} ≠ [] ∧
  resolveState
    {| steps := <["a" := {| state := RUNNING |}]> (<["b" := {| state := FAILED |}]> ∅);
       logCaptureSteps := None |}
    {| stepKeys := ["a"; "b"]; pid := None |} = Returns RUNNING.
Proof.
  split; [discriminate|].
  refine (proj1 (resolveState_priority_order _ _ [RUNNING; FAILED] _ _) _).
  - discriminate.
  - repeat constructor.
  - left.
Defined.



(** ** The gates of the explorer *)

Section ExplorerGates.
Context {Repository LayoutResult ComputeStatuses : Type}.
Variable buildGraphData : Repository → string → GraphData.
Variable graphHasCycles : GraphData → bool.
Variable layoutGraph : GraphData → LayoutResult.
Variable buildGraphComputeStatuses : GraphData → ComputeStatuses.

Local Abbreviation render_graph :=
  (explore (LayoutResult := LayoutResult) graphHasCycles layoutGraph buildGraphComputeStatuses).
Local Abbreviation render :=
  (AssetGraphExplorer buildGraphData graphHasCycles layoutGraph buildGraphComputeStatuses).

(** C2. When the cycle check reports a cycle, the explorer shows the
    "Cycle detected" error placard and stops there: the only calls made
    are the graph build and the cycle check, so no layout and no compute
    statuses are computed, and the view is not a graph view, so it has no
    click handler that could start a path search. *)
Theorem cycle_stops_the_explorer (graphData : GraphData) (props : Props) :
  graphHasCycles graphData = true →
  render_graph graphData props =
    (NonIdealState "error" "Cycle detected" (Some "Assets dependencies form a cycle"),
     [call_graphHasCycles]) ∧
  (∀ repository,
     buildGraphData repository (pipelineName (explorerPath props)) = graphData →
     render (IsRepository repository) props =
       (NonIdealState "error" "Cycle detected" (Some "Assets dependencies form a cycle"),
        [call_buildGraphData; call_graphHasCycles])) ∧
  (call_layoutGraph ∉ snd (render_graph graphData props)) ∧
  (call_buildGraphComputeStatuses ∉ snd (render_graph graphData props)) ∧
  (∀ layout statuses handler,
     fst (render_graph graphData props) ≠ GraphView layout statuses handler).
Proof.
  intros Hcyc.
  assert (Hview : render_graph graphData props =
    (NonIdealState "error" "Cycle detected" (Some "Assets dependencies form a cycle"),
     [call_graphHasCycles])).
  { unfold explore, calling. cbn [mbind traced_bind fst snd]. rewrite Hcyc. reflexivity. }
  split; [exact Hview|]. split.
  - intros repository Hbuild. unfold AssetGraphExplorer, calling.
    cbn [mbind traced_bind fst snd]. rewrite Hbuild, Hview. reflexivity.
  - rewrite Hview. cbn [fst snd]. rewrite !elem_of_cons, !elem_of_nil.
    repeat split; [intuition discriminate | intuition discriminate | discriminate].
Qed.

(** C8. A graph without cycles and without nodes gets the "No assets
    defined" placard, which is not the cycle placard; only the cycle check
    has run for it, so neither layout nor compute statuses are computed. *)
Theorem empty_graph_has_its_own_placard (graphData : GraphData) (props : Props) :
  graphHasCycles graphData = false →
  size (nodes graphData) = 0 →
  render_graph graphData props =
    (NonIdealState "no-results" "No assets defined"
       (Some "No assets defined using the @asset definition"),
     [call_graphHasCycles]) ∧
  fst (render_graph graphData props) ≠
    NonIdealState "error" "Cycle detected" (Some "Assets dependencies form a cycle") ∧
  (call_layoutGraph ∉ snd (render_graph graphData props)) ∧
  (call_buildGraphComputeStatuses ∉ snd (render_graph graphData props)) ∧
  (∀ layout statuses handler,
     fst (render_graph graphData props) ≠ GraphView layout statuses handler).
Proof.
  intros Hacyc Hempty.
  assert (Hview : render_graph graphData props =
    (NonIdealState "no-results" "No assets defined"
       (Some "No assets defined using the @asset definition"),
     [call_graphHasCycles])).
  { unfold explore, calling. cbn [mbind traced_bind fst snd]. rewrite Hacyc.
    rewrite bool_decide_eq_true_2 by done. reflexivity. }
  split; [exact Hview|]. rewrite Hview. cbn [fst snd].
  rewrite !elem_of_cons, !elem_of_nil.
  repeat split; [discriminate | intuition discriminate | intuition discriminate | discriminate].
Qed.

(** What the gates protect: an acyclic graph with a node is laid out and
    gets its statuses, and the run creates the click callback for it. *)
Lemma explorer_shows_the_graph (graphData : GraphData) (props : Props) :
  graphHasCycles graphData = false →
  size (nodes graphData) ≠ 0 →
  render_graph graphData props =
    (GraphView (layoutGraph graphData) (buildGraphComputeStatuses graphData)
       (onSelectNode graphData (explorerPath props) (selectedGraphNode props)),
     [call_graphHasCycles; call_layoutGraph; call_buildGraphComputeStatuses]).
Proof.
  intros Hacyc Hnodes. unfold explore, AssetGraphExplorerWithData, calling.
  cbn [mbind traced_bind fst snd]. rewrite Hacyc.
  rewrite bool_decide_eq_false_2 by done. reflexivity.
Qed.

End ExplorerGates.

(** ** The path search *)

(** *** The loop over the neighbours *)

Lemma improves_spec (result best : ops) :
  improves result best = true ↔
  result ≠ [] ∧ (best = [] ∨ length result < length best).
Proof.
  unfold improves. rewrite andb_true_iff, orb_true_iff, negb_true_iff.
  rewrite Nat.eqb_neq, Nat.eqb_eq, Nat.ltb_lt, !length_zero_iff_nil. tauto.
Qed.

(** One turn of the loop, for case analysis in the proofs below. *)
Lemma for_adjacent_cons rec x seen node rest best :
  for_adjacent rec x seen (Some node :: rest) best =
    if bool_decide (id node ∈ seen) then for_adjacent rec x seen rest best
    else match rec node with
         | None => None
         | Some Throws_TypeError => Some Throws_TypeError
         | Some (Returns result) =>
             for_adjacent rec x seen rest
               (if improves result best then opName (definition x) :: result else best)
         end.
Proof.
  cbn [for_adjacent]. destruct (bool_decide _); [done|].
  destruct (rec node) as [[result|]|]; [|done..]. by destruct (improves _ _).
Qed.

(** The loop only consults [rec] at neighbours that are not in [seen]. *)
Lemma for_adjacent_ext rec rec' x seen adj best :
  (∀ node, Some node ∈ adj → id node ∉ seen → rec node = rec' node) →
  for_adjacent rec x seen adj best = for_adjacent rec' x seen adj best.
Proof.
  revert best. induction adj as [|[node|] rest IH]; intros best Hrec; [done| |done].
  rewrite !for_adjacent_cons. case_bool_decide as Hseen.
  - apply IH. intros node' Hin. apply Hrec. by right.
  - rewrite <- (Hrec node) by (done || left).
    destruct (rec node) as [[result|]|]; [|done..].
    apply IH. intros node' Hin. apply Hrec. by right.
Qed.

(** It depends on [seen] only through membership. *)
Lemma for_adjacent_seen_ext rec x seen seen' adj best :
  (∀ i, i ∈ seen ↔ i ∈ seen') →
  for_adjacent rec x seen adj best = for_adjacent rec x seen' adj best.
Proof.
  intros Hsame. revert best. induction adj as [|[node|] rest IH]; intros best; [done| |done].
  rewrite !for_adjacent_cons. rewrite (bool_decide_ext _ _ (Hsame (id node))).
  destruct (bool_decide _); [done|].
  destruct (rec node) as [[result|]|]; done.
Qed.

(** A recursive call that ends keeps its answer when [rec] is replaced by
    a function that agrees with it wherever it ends. *)
Lemma for_adjacent_mono rec rec' x seen adj best c :
  (∀ node c', rec node = Some c' → rec' node = Some c') →
  for_adjacent rec x seen adj best = Some c →
  for_adjacent rec' x seen adj best = Some c.
Proof.
  intros Hrec. revert best. induction adj as [|[node|] rest IH]; intros best; [done| |done].
  rewrite !for_adjacent_cons. destruct (bool_decide _); [by apply IH|].
  destruct (rec node) as [c'|] eqn:Hnode; [|done].
  rewrite (Hrec _ _ Hnode). destruct c'; [by apply IH|done].
Qed.

Lemma for_adjacent_is_Some rec x seen adj best :
  (∀ node, Some node ∈ adj → id node ∉ seen → is_Some (rec node)) →
  is_Some (for_adjacent rec x seen adj best).
Proof.
  revert best. induction adj as [|[node|] rest IH]; intros best Hrec; [done| |done].
  rewrite for_adjacent_cons. case_bool_decide as Hseen.
  - apply IH. intros node' Hin. apply Hrec. by right.
  - destruct (Hrec node) as [[result|] ->]; [left|done| |done].
    apply IH. intros node' Hin. apply Hrec. by right.
Qed.

(** What a loop that returns has done: every neighbour resolved, every
    neighbour outside [seen] was searched and its search returned, and the
    final [best] is the initial one or comes from one of these searches
    and is no longer than any of them, nor than the initial one. *)
Lemma for_adjacent_returns rec x seen adj best r :
  for_adjacent rec x seen adj best = Some (Returns r) →
  (None ∉ adj) ∧
  (∀ node, Some node ∈ adj → id node ∉ seen →
     ∃ r', rec node = Some (Returns r') ∧ (r' ≠ [] → r ≠ [] ∧ length r ≤ S (length r'))) ∧
  (r = best ∨
   ∃ node r', Some node ∈ adj ∧ (id node ∉ seen) ∧ rec node = Some (Returns r') ∧
              r' ≠ [] ∧ r = opName (definition x) :: r') ∧
  (best ≠ [] → r ≠ [] ∧ length r ≤ length best).
Proof.
  revert best. induction adj as [|[node|] rest IH]; intros best.
  - intros [= <-]. split_and!; [apply not_elem_of_nil| |by left|done].
    intros node Hin. by apply elem_of_nil in Hin.
  - rewrite for_adjacent_cons. case_bool_decide as Hseen.
    + intros Hrest. destruct (IH _ Hrest) as (Hres & Hall & Hfrom & Hbest).
      split_and!; [|intros node' [[= ->]|Hin]%elem_of_cons Hns| |done].
      * rewrite elem_of_cons. intros [?|?]; done.
      * done.
      * by apply Hall.
      * destruct Hfrom as [?|(node' & r' & ? & ?)]; [by left|].
        right. exists node', r'. split; [by right|done].
    + destruct (rec node) as [[result|]|] eqn:Hnode; [|done..].
      intros Hrest. destruct (IH _ Hrest) as (Hres & Hall & Hfrom & Hbest).
      destruct (improves result best) eqn:Himp.
      * apply improves_spec in Himp as [Hne Hshorter].
        destruct Hbest as [Hr Hlen]; [done|]. cbn [length] in Hlen.
        split_and!; [|intros node' [[= ->]|Hin]%elem_of_cons Hns| |].
        -- rewrite elem_of_cons. intros [?|?]; done.
        -- exists result. split; [done|]. intros _. split; [done|lia].
        -- by apply Hall.
        -- right. destruct Hfrom as [->|(node' & r' & ? & ?)].
           ++ exists node, result. split_and!; [left|done..].
           ++ exists node', r'. split; [by right|done].
        -- intros Hb. split; [done|]. destruct Hshorter as [->|?]; [done|lia].
      * assert (Hno : result = [] ∨ (best ≠ [] ∧ length best ≤ length result)).
        { destruct (decide (result = [])) as [?|Hne]; [by left|right].
          destruct (decide (best = [])) as [->|Hb].
          - exfalso. assert (improves result [] = true) as Hyes; [|congruence].
            apply improves_spec. by split; [|left].
          - split; [done|]. apply Nat.nlt_ge. intros Hlt.
            assert (improves result best = true) as Hyes; [|congruence].
            apply improves_spec. by split; [|right]. }
        split_and!; [|intros node' [[= ->]|Hin]%elem_of_cons Hns| |done].
        -- rewrite elem_of_cons. intros [?|?]; done.
        -- exists result. split; [done|]. intros Hne.
           destruct Hno as [?|[Hb Hle]]; [done|].
           destruct (Hbest Hb) as [? ?]. split; [done|lia].
        -- by apply Hall.
        -- destruct Hfrom as [?|(node' & r' & ? & ?)]; [by left|].
           right. exists node', r'. split; [by right|done].
  - done.
Qed.

(** *** Fuel *)

Section Fuel.
Variable graph : GraphData.
Variable to : Node.

Lemma opsInRange_fuel_S fuel from seen :
  opsInRange_fuel (S fuel) graph from to seen =
    opsInRange_body (λ node seen', opsInRange_fuel fuel graph (Some node) to seen')
      graph from to seen.
Proof. reflexivity. Qed.

(** More fuel does not change an answer. *)
Lemma opsInRange_fuel_mono fuel fuel' from seen c :
  fuel ≤ fuel' →
  opsInRange_fuel fuel graph from to seen = Some c →
  opsInRange_fuel fuel' graph from to seen = Some c.
Proof.
  revert fuel' from seen c.
  induction fuel as [|fuel IH]; intros fuel' from seen c Hle; [done|].
  destruct fuel' as [|fuel']; [lia|]. rewrite !opsInRange_fuel_S.
  unfold opsInRange_body. destruct from as [x|]; [|done].
  destruct (decide (id x = id to)); [done|].
  apply for_adjacent_mono. intros node c'. apply IH. lia.
Qed.

(** Only the set of seen ids matters. *)
Lemma opsInRange_fuel_seen_ext fuel from seen seen' :
  (∀ i, i ∈ seen ↔ i ∈ seen') →
  opsInRange_fuel fuel graph from to seen = opsInRange_fuel fuel graph from to seen'.
Proof.
  revert from seen seen'. induction fuel as [|fuel IH]; intros from seen seen' Hsame; [done|].
  rewrite !opsInRange_fuel_S. unfold opsInRange_body. destruct from as [x|]; [|done].
  destruct (decide (id x = id to)); [done|].
  rewrite (for_adjacent_seen_ext _ _ seen seen') by done.
  apply for_adjacent_ext. intros node _ _. apply IH.
  intros i. rewrite !elem_of_app, Hsame. done.
Qed.

(** The ids behind the keys of the node map are node ids. *)
Lemma adjacent_node_ids x node :
  Some node ∈ adjacent graph x → id node ∈ node_ids graph.
Proof.
  unfold adjacent. intros (n & Hn & _)%list_elem_of_fmap.
  unfold node_ids. apply list_elem_of_fmap. exists (n, node). split; [done|].
  by apply elem_of_map_to_list.
Qed.

Lemma unseen_mono (l seen seen' : list string) :
  (∀ i, i ∈ seen → i ∈ seen') →
  length (filter (λ i, i ∉ seen') l) ≤ length (filter (λ i, i ∉ seen) l).
Proof.
  intros Hsub. induction l as [|i l IH]; [done|].
  rewrite !filter_cons. destruct (decide (i ∉ seen')) as [Hi|Hi].
  - rewrite decide_True by auto. cbn [length]. lia.
  - destruct (decide (i ∉ seen)); cbn [length]; lia.
Qed.

Lemma unseen_strict (l seen seen' : list string) (j : string) :
  (∀ i, i ∈ seen → i ∈ seen') →
  j ∈ l → j ∉ seen → j ∈ seen' →
  length (filter (λ i, i ∉ seen') l) < length (filter (λ i, i ∉ seen) l).
Proof.
  intros Hsub Hj Hnew Hold. induction l as [|i l IH]; [by apply elem_of_nil in Hj|].
  pose proof (unseen_mono l seen seen' Hsub) as Hmono.
  rewrite !filter_cons. apply elem_of_cons in Hj as [<-|Hj].
  - rewrite decide_False by auto. rewrite decide_True by done. cbn [length]. lia.
  - specialize (IH Hj). destruct (decide (i ∉ seen')) as [Hi|Hi].
    + rewrite decide_True by auto. cbn [length]. lia.
    + destruct (decide (i ∉ seen)); cbn [length]; lia.
Qed.

(** Every recursive call lowers the measure. *)
Lemma depth_left_step x node seen :
  Some node ∈ adjacent graph x → id node ∉ seen →
  depth_left graph node (seen ++ [id x]) < depth_left graph x seen.
Proof.
  intros Hadj Hnode. apply adjacent_node_ids in Hadj.
  assert (Hsub : ∀ i, i ∈ seen → i ∈ seen ++ [id x]).
  { intros i Hi. apply elem_of_app. by left. }
  unfold depth_left, unseen.
  pose proof (unseen_mono (node_ids graph) seen (seen ++ [id x]) Hsub) as Hmono.
  destruct (decide (id x ∈ node_ids graph ∧ id x ∉ seen)) as [[Hin Hnew]|Hx].
  - rewrite (bool_decide_eq_true_2 (id x ∈ node_ids graph ∧ id x ∉ seen)) by done.
    pose proof (unseen_strict (node_ids graph) seen (seen ++ [id x]) (id x) Hsub Hin Hnew)
      as Hstrict.
    assert (id x ∈ seen ++ [id x]) as Hnow.
    { apply elem_of_app. right. by apply list_elem_of_singleton. }
    specialize (Hstrict Hnow). destruct (bool_decide _); lia.
  - rewrite (bool_decide_eq_false_2 (id x ∈ node_ids graph ∧ id x ∉ seen)) by done.
    rewrite bool_decide_eq_true_2; [lia|]. split; [done|].
    rewrite elem_of_app, list_elem_of_singleton. intros [?|Heq]; [done|].
    apply Hx. rewrite <- Heq. done.
Qed.

Lemma depth_left_bound x seen : depth_left graph x seen < search_fuel graph.
Proof.
  unfold depth_left, search_fuel, unseen.
  pose proof (length_filter (λ i, i ∉ seen) (node_ids graph)) as Hle.
  unfold node_ids in Hle at 2. rewrite length_fmap, length_map_to_list in Hle.
  destruct (bool_decide _); lia.
Qed.

(** With more fuel than the measure the search ends. *)
Lemma opsInRange_fuel_ends fuel x seen :
  depth_left graph x seen < fuel →
  is_Some (opsInRange_fuel fuel graph (Some x) to seen).
Proof.
  revert x seen. induction fuel as [|fuel IH]; intros x seen Hfuel; [lia|].
  rewrite opsInRange_fuel_S. unfold opsInRange_body.
  destruct (decide (id x = id to)); [done|].
  apply for_adjacent_is_Some. intros node Hadj Hnew. apply IH.
  pose proof (depth_left_step x node seen Hadj Hnew). lia.
Qed.

(** [opsInRange] always ends: it returns or throws. *)
Lemma opsInRange_seen_ends from seen : is_Some (opsInRange_seen graph from to seen).
Proof.
  unfold opsInRange_seen. destruct from as [x|].
  - apply opsInRange_fuel_ends, depth_left_bound.
  - unfold search_fuel. by rewrite Nat.add_comm.
Qed.

(** The equation of the source: [opsInRange] is its body, with itself at
    the recursive call. *)
Lemma opsInRange_seen_unfold from seen :
  opsInRange_seen graph from to seen =
    opsInRange_body (λ node seen', opsInRange_seen graph (Some node) to seen')
      graph from to seen.
Proof.
  unfold opsInRange_seen at 1.
  assert (search_fuel graph = S (2 * size (nodes graph) + 1)) as Hfuel
    by (unfold search_fuel; lia).
  rewrite Hfuel, opsInRange_fuel_S. unfold opsInRange_body.
  destruct from as [x|]; [|done]. destruct (decide (id x = id to)); [done|].
  apply for_adjacent_ext. intros node Hadj Hnew.
  pose proof (depth_left_step x node seen Hadj Hnew) as Hstep.
  pose proof (depth_left_bound x seen) as Hbound. rewrite Hfuel in Hbound.
  destruct (opsInRange_fuel_ends (2 * size (nodes graph) + 1) node (seen ++ [id x]))
    as [c Hc]; [lia|].
  rewrite Hc. symmetry. unfold opsInRange_seen.
  apply (opsInRange_fuel_mono (2 * size (nodes graph) + 1)); [unfold search_fuel; lia|done].
Qed.

End Fuel.

(** *** What the search returns *)

Section Search.
Variable graph : GraphData.
Variable to : Node.

Lemma adjacent_linked x node :
  Some node ∈ adjacent graph x → linked graph (id x) (id node).
Proof.
  unfold adjacent. intros (n & Hn & Hkey)%list_elem_of_fmap.
  exists n, node. done.
Qed.

Lemma adjacent_neighbour x node :
  Some node ∈ adjacent graph x ↔ neighbour graph x node.
Proof.
  unfold adjacent, neighbour, neighbour_keys. rewrite list_elem_of_fmap.
  split; intros (n & ? & ?); exists n; done.
Qed.

(** A non-empty result follows links from the start to the target. *)
Lemma opsInRange_fuel_links fuel x seen r :
  opsInRange_fuel fuel graph (Some x) to seen = Some (Returns r) →
  r ≠ [] → rtc (linked graph) (id x) (id to).
Proof.
  revert x seen r. induction fuel as [|fuel IH]; intros x seen r; [done|].
  rewrite opsInRange_fuel_S. unfold opsInRange_body.
  destruct (decide (id x = id to)) as [->|Hne]; [done|].
  intros (_ & _ & [->|(node & r' & Hadj & _ & Hnode & Hr' & _)] & _)%for_adjacent_returns Hr;
    [done|].
  eapply rtc_l; [by apply adjacent_linked|]. by eapply IH.
Qed.

(** In a graph whose adjacency keys all resolve the search never throws. *)
Lemma for_adjacent_no_throw rec x seen adj best :
  None ∉ adj → (∀ node, rec node ≠ Some Throws_TypeError) →
  for_adjacent rec x seen adj best ≠ Some Throws_TypeError.
Proof.
  intros Hres Hrec. revert best.
  induction adj as [|[node|] rest IH]; intros best; [done| |].
  - rewrite for_adjacent_cons.
    assert (None ∉ rest) as Hrest by (intros ?; apply Hres; by right).
    destruct (bool_decide _); [by apply IH|].
    specialize (Hrec node). destruct (rec node) as [[result|]|]; [by apply IH|done..].
  - exfalso. apply Hres. left.
Qed.

Lemma opsInRange_fuel_no_throw fuel from seen :
  adjacency_resolved graph →
  opsInRange_fuel fuel graph from to seen ≠ Some Throws_TypeError.
Proof.
  intros Hres. revert from seen. induction fuel as [|fuel IH]; intros from seen; [done|].
  rewrite opsInRange_fuel_S. unfold opsInRange_body. destruct from as [x|]; [|done].
  destruct (decide (id x = id to)) as [?|Hne]; [done|].
  apply for_adjacent_no_throw; [|intros node; apply IH].
  unfold adjacent. intros (n & Hnone & Hn)%list_elem_of_fmap.
  destruct (Hres (id x) n Hn) as [node Hnode]. congruence.
Qed.

(** A step through a self-loop never ends up in the result: what is
    found behind it is found one step earlier without it. *)
Lemma self_loop_is_longer fuel x node seen r r' :
  id x ≠ id to → id node = id x →
  for_adjacent (λ node', opsInRange_fuel fuel graph (Some node') to (seen ++ [id x]))
    x seen (adjacent graph x) [] = Some (Returns r) →
  opsInRange_fuel fuel graph (Some node) to (seen ++ [id x]) = Some (Returns r') →
  r' ≠ [] → length r ≤ length r'.
Proof.
  intros Hne Hself (_ & Hall & _)%for_adjacent_returns Hnode Hr'.
  destruct fuel as [|fuel]; [done|].
  rewrite opsInRange_fuel_S in Hnode. unfold opsInRange_body in Hnode.
  rewrite decide_False in Hnode by congruence.
  assert (adjacent graph node = adjacent graph x) as Hsame
    by (unfold adjacent; by rewrite Hself).
  rewrite Hsame in Hnode.
  apply for_adjacent_returns in Hnode
    as (_ & _ & [->|(d & r'' & Hadj & Hnew & Hd & Hr'' & ->)] & _); [done|].
  destruct (Hall d Hadj) as (rd & Hrd & Hshort).
  { intros Hin. apply Hnew. apply elem_of_app. by left. }
  apply (opsInRange_fuel_mono _ _ fuel (S fuel)) in Hd; [|lia].
  rewrite (opsInRange_fuel_seen_ext _ _ _ _ _ (seen ++ [id x])) in Hd.
  - rewrite Hd in Hrd. injection Hrd as <-.
    destruct (Hshort Hr'') as [_ Hlen]. cbn [length]. lia.
  - intros i. rewrite !elem_of_app, !list_elem_of_singleton, Hself. tauto.
Qed.

(** A non-empty result lists the op names along a walk from the start
    to the target on which no id repeats and which avoids [seen] after
    its first node. *)
Lemma opsInRange_fuel_path fuel x seen r :
  opsInRange_fuel fuel graph (Some x) to seen = Some (Returns r) →
  r ≠ [] →
  ∃ p : list Node,
    r = op_names p ∧
    head (id <$> p) = Some (id x) ∧
    (id x ≠ id to → head p = Some x) ∧
    last p = Some to ∧
    walk graph (id <$> p) ∧
    NoDup (id <$> p) ∧
    (∀ i, i ∈ tail (id <$> p) → i ∉ seen) ∧
    trail graph to x p.
Proof.
  revert x seen r. induction fuel as [|fuel IH]; intros x seen r; [done|].
  rewrite opsInRange_fuel_S. unfold opsInRange_body.
  destruct (decide (id x = id to)) as [Heq|Hne].
  - intros [= <-] _. exists [to]. split_and!.
    + reflexivity.
    + cbn. by rewrite Heq.
    + done.
    + reflexivity.
    + apply walk_end.
    + apply NoDup_singleton.
    + intros i Hi. by apply elem_of_nil in Hi.
    + by apply trail_end.
  - intros Hloop Hr.
    pose proof Hloop as (_ & _ & [->|(node & r' & Hadj & Hnew & Hnode & Hr' & ->)] & _)
      %for_adjacent_returns; [done|].
    destruct (IH node _ r' Hnode Hr') as (p & -> & Hhead & _ & Hlast & Hwalk & Hnodup & Htail & Htrail).
    destruct p as [|y p]; [done|]. injection Hhead as Hy.
    assert (id node ≠ id x) as Hnoloop.
    { intros Hself.
      pose proof (self_loop_is_longer _ _ _ _ _ _ Hne Hself Hloop Hnode Hr') as Hlen.
      cbn [length] in Hlen. lia. }
    exists (x :: y :: p). split_and!.
    + reflexivity.
    + reflexivity.
    + reflexivity.
    + exact Hlast.
    + cbn [fmap list_fmap] in *. apply walk_step; [|done].
      rewrite Hy. by apply adjacent_linked.
    + cbn [fmap list_fmap] in *. apply NoDup_cons. split; [|done].
      rewrite elem_of_cons, Hy. intros [?|Hin]; [done|].
      apply (Htail (id x)); [done|]. apply elem_of_app. right. left.
    + cbn [fmap list_fmap tail] in *. intros i [->|Hin]%elem_of_cons.
      * by rewrite Hy.
      * intros Hi. apply (Htail i Hin). apply elem_of_app. by left.
    + apply (trail_step graph to x node); [done| |done]. by apply adjacent_neighbour.
Qed.

(** The first node of a trail, and its consecutive pairs. *)
Lemma trail_head x p :
  trail graph to x p → ∃ h, head p = Some h ∧ id h = id x ∧ (h = x ∨ h = to).
Proof.
  intros [x' Hsame|x' y p' _ _ _].
  - exists to. split_and!; [done|done|by right].
  - exists x'. split_and!; [done|done|by left].
Qed.

Lemma trail_pairs x p :
  trail graph to x p →
  ∀ i a b, p !! i = Some a → p !! S i = Some b →
    ∃ node, neighbour graph a node ∧ id node = id b ∧ (b = node ∨ b = to).
Proof.
  induction 1 as [x Hsame|x y p Hne Hnext Htrail IH]; intros i a b Ha Hb.
  - by destruct i.
  - destruct i as [|i].
    + injection Ha as <-.
      destruct (trail_head y p Htrail) as (h & Hh & Hid & Hor).
      destruct p as [|h' p']; [done|]. injection Hh as ->. injection Hb as <-.
      exists y. split_and!; [done|done|]. destruct Hor; [by left|by right].
    + by apply (IH i).
Qed.

End Search.

(** *** The claims about the path search *)

(** C5. With the same node at both ends the search returns the
    one-element sequence of that node's op name, in every graph. *)
Theorem opsInRange_same_node (graph : GraphData) (n : Node) :
  opsInRange graph (Some n) n = Some (Returns [opName (definition n)]).
Proof.
  unfold opsInRange. rewrite opsInRange_seen_unfold. unfold opsInRange_body.
  by rewrite decide_True.
Qed.

(** C3. A search that returns, started at a node other than the target
    with the ids of its ancestors in [seen], has looked at every upstream
    and every downstream key of the node: each resolves to a neighbour, and
    each neighbour that is not among the ancestors was searched with
    exactly the ancestors and the node itself as its [seen], and that
    search returned.  The result is empty, or it is the op name of the
    node in front of the result of one of these searches; and it is at
    least as short as the candidate through any other neighbour, and
    non-empty as soon as one candidate is. *)
Theorem opsInRange_keeps_shortest (graph : GraphData) (from to : Node)
    (seen : list string) (r : ops) :
  id from ≠ id to →
  opsInRange_seen graph (Some from) to seen = Some (Returns r) →
  (∀ n, n ∈ keys_or_empty (upstream graph !! id from)
        ∨ n ∈ keys_or_empty (downstream graph !! id from) →
     ∃ node, nodes graph !! n = Some node ∧
       (id node ∉ seen →
        ∃ r', opsInRange_seen graph (Some node) to (seen ++ [id from]) = Some (Returns r') ∧
              (r' ≠ [] → r ≠ [] ∧ length r ≤ length (opName (definition from) :: r')))) ∧
  (r = [] ∨
   ∃ node r', neighbour graph from node ∧ (id node ∉ seen) ∧
     opsInRange_seen graph (Some node) to (seen ++ [id from]) = Some (Returns r') ∧
     r' ≠ [] ∧ r = opName (definition from) :: r').
Proof.
  intros Hne. rewrite opsInRange_seen_unfold. unfold opsInRange_body.
  rewrite decide_False by done.
  intros (Hres & Hall & Hfrom & _)%for_adjacent_returns. split.
  - intros n Hn%elem_of_app.
    destruct (nodes graph !! n) as [node|] eqn:Hnode.
    + exists node. split; [done|]. intros Hnew. apply Hall; [|done].
      unfold adjacent. apply list_elem_of_fmap. exists n. done.
    + exfalso. apply Hres. unfold adjacent. apply list_elem_of_fmap. exists n. done.
  - destruct Hfrom as [->|(node & r' & Hadj & ? & ? & ? & ?)]; [by left|right].
    exists node, r'. split_and!; try done. by apply adjacent_neighbour.
Qed.

(** C10. A non-empty result of the search is the sequence of op names
    along a sequence of nodes that begins at the start node (at the target
    itself when both have the same id), ends at the target, and passes no
    node id twice.  Each node of the sequence after the first is the node
    behind an upstream or downstream key of the node before it -- the
    target stands for the node of its id that the search reached -- so
    every element of the result is the op name of the start, of a node of
    the graph next to its predecessor, or of the target. *)
Theorem opsInRange_returns_simple_path (graph : GraphData) (from to : Node) (r : ops) :
  opsInRange graph (Some from) to = Some (Returns r) →
  r ≠ [] →
  ∃ p : list Node,
    r = op_names p ∧
    head (id <$> p) = Some (id from) ∧
    (id from ≠ id to → head p = Some from) ∧
    last p = Some to ∧
    walk graph (id <$> p) ∧
    NoDup (id <$> p) ∧
    trail graph to from p ∧
    (∀ i a b, p !! i = Some a → p !! S i = Some b →
       ∃ node, neighbour graph a node ∧ id node = id b ∧ (b = node ∨ b = to)).
Proof.
  intros Hr Hne.
  destruct (opsInRange_fuel_path _ _ _ _ _ _ Hr Hne)
    as (p & ? & ? & ? & ? & ? & ? & _ & Htrail).
  exists p. split_and!; try done. by apply (trail_pairs graph to from).
Qed.

(** Links lead to connected ids. *)
Lemma links_connected (graph : GraphData) (a b : string) :
  rtc (linked graph) a b → connected graph a b.
Proof. apply rtc_subrel. intros ? ? ?. by left. Qed.

(** C6. In a graph whose upstream and downstream keys all resolve to
    nodes, a search between two nodes whose ids lie in different components
    of the undirected adjacency ends normally with the empty sequence. *)
Theorem opsInRange_disconnected (graph : GraphData) (from to : Node) :
  adjacency_resolved graph →
  ¬ connected graph (id from) (id to) →
  opsInRange graph (Some from) to = Some (Returns []).
Proof.
  intros Hres Hapart.
  destruct (opsInRange_seen_ends graph to (Some from) []) as [[r|] Hr].
  - unfold opsInRange. rewrite Hr. destruct r as [|o r]; [done|].
    exfalso. apply Hapart, links_connected.
    by apply (opsInRange_fuel_links _ _ _ _ _ _ Hr).
  - exfalso. by apply (opsInRange_fuel_no_throw _ _ _ _ _ Hres Hr).
Qed.

(** *** The linear chain *)

Section Chain.
Variables a b c : Node.
Hypothesis Hab : id a ≠ id b.
Hypothesis Hbc : id b ≠ id c.
Hypothesis Hac : id a ≠ id c.

Lemma chain_adjacent_first : adjacent (chain_graph a b c) a = [Some b].
Proof. unfold adjacent, chain_graph. cbn [nodes upstream downstream]. by simplify_map_eq. Qed.

Lemma chain_adjacent_middle : adjacent (chain_graph a b c) b = [Some a; Some c].
Proof. unfold adjacent, chain_graph. cbn [nodes upstream downstream]. by simplify_map_eq. Qed.

Lemma chain_adjacent_last : adjacent (chain_graph a b c) c = [Some b].
Proof. unfold adjacent, chain_graph. cbn [nodes upstream downstream]. by simplify_map_eq. Qed.

Lemma on_path (seen : list string) (i : string) : i ∈ seen ++ [i].
Proof. apply elem_of_app. right. left. Qed.

Lemma off_path (seen : list string) (i j : string) : i ∉ seen → i ≠ j → i ∉ seen ++ [j].
Proof. rewrite elem_of_app, list_elem_of_singleton. tauto. Qed.

Lemma chain_search_forward seen :
  id b ∉ seen → id c ∉ seen →
  opsInRange_seen (chain_graph a b c) (Some a) c seen =
    Some (Returns (op_names [a; b; c])).
Proof.
  intros Hb Hc.
  rewrite opsInRange_seen_unfold. unfold opsInRange_body.
  rewrite decide_False by done. rewrite chain_adjacent_first, for_adjacent_cons.
  rewrite bool_decide_eq_false_2 by done.
  rewrite opsInRange_seen_unfold. unfold opsInRange_body.
  rewrite decide_False by done. rewrite chain_adjacent_middle, !for_adjacent_cons.
  rewrite (bool_decide_eq_true_2 (id a ∈ seen ++ [id a])) by apply on_path.
  rewrite (bool_decide_eq_false_2 (id c ∈ seen ++ [id a])) by (apply off_path; done).
  rewrite opsInRange_seen_unfold. unfold opsInRange_body.
  rewrite decide_True by done. reflexivity.
Qed.

Lemma chain_search_backward seen :
  id b ∉ seen → id a ∉ seen →
  opsInRange_seen (chain_graph a b c) (Some c) a seen =
    Some (Returns (op_names [c; b; a])).
Proof.
  intros Hb Ha.
  rewrite opsInRange_seen_unfold. unfold opsInRange_body.
  rewrite decide_False by done. rewrite chain_adjacent_last, for_adjacent_cons.
  rewrite bool_decide_eq_false_2 by done.
  rewrite opsInRange_seen_unfold. unfold opsInRange_body.
  rewrite decide_False by done. rewrite chain_adjacent_middle, for_adjacent_cons.
  rewrite (bool_decide_eq_false_2 (id a ∈ seen ++ [id c])) by (apply off_path; done).
  rewrite opsInRange_seen_unfold. unfold opsInRange_body.
  rewrite decide_True by done. rewrite for_adjacent_cons.
  rewrite (bool_decide_eq_true_2 (id c ∈ seen ++ [id c])) by apply on_path.
  reflexivity.
Qed.

End Chain.

(** C4, as the code has it.  On the chain a → b → c of three nodes with
    distinct ids, the search from [a] to [c] returns exactly three
    elements, the op names of [a], [b], [c] in this order, and the search
    from [c] to [a] the same three in reverse.  The result is the sequence
    of the three ids only where the op name of each node is its id. *)
Theorem opsInRange_chain (a b c : Node) :
  id a ≠ id b → id b ≠ id c → id a ≠ id c →
  opsInRange (chain_graph a b c) (Some a) c =
    Some (Returns [opName (definition a); opName (definition b); opName (definition c)]) ∧
  opsInRange (chain_graph a b c) (Some c) a =
    Some (Returns [opName (definition c); opName (definition b); opName (definition a)]) ∧
  (opName (definition a) = Some (id a) → opName (definition b) = Some (id b) →
   opName (definition c) = Some (id c) →
   opsInRange (chain_graph a b c) (Some a) c =
     Some (Returns [Some (id a); Some (id b); Some (id c)])).
Proof.
  intros Hab Hbc Hac.
  assert (opsInRange (chain_graph a b c) (Some a) c = Some (Returns (op_names [a; b; c])))
    as Hforward.
  { apply chain_search_forward; try done; apply not_elem_of_nil. }
  split_and!.
  - exact Hforward.
  - apply chain_search_backward; try done; apply not_elem_of_nil.
  - intros Ha Hb Hc. rewrite Hforward. unfold op_names. cbn [fmap list_fmap].
    by rewrite Ha, Hb, Hc.
Qed.

(** *** Two nodes without an edge *)

Lemma two_islands_resolved (a b : Node) : adjacency_resolved (two_islands a b).
Proof.
  intros x n. unfold neighbour_keys, two_islands. cbn [upstream downstream].
  rewrite !lookup_empty. cbn. intros Hn. by apply elem_of_nil in Hn.
Qed.

Lemma two_islands_unlinked (a b : Node) (x y : string) : ¬ linked (two_islands a b) x y.
Proof.
  intros (n & node & Hn & _). revert Hn. unfold neighbour_keys, two_islands.
  cbn [upstream downstream]. rewrite !lookup_empty. cbn. apply not_elem_of_nil.
Qed.

Lemma two_islands_apart (a b : Node) :
  id a ≠ id b → ¬ connected (two_islands a b) (id a) (id b).
Proof.
  intros Hne Hconn. destruct Hconn as [|x y z [Hl|Hl] _]; [done| |];
    by apply two_islands_unlinked in Hl.
Qed.

(** ** The statements at concrete inputs *)

Lemma cycle_stops_the_explorer_witness :
  (λ _ : GraphData, true) cycle_graph = true ∧
  explore (λ _, true) (λ _, tt) (λ _, tt) cycle_graph some_props =
    (NonIdealState "error" "Cycle detected" (Some "Assets dependencies form a cycle"),
     [call_graphHasCycles]).
Proof.
  split; [reflexivity|].
  exact (proj1 (cycle_stops_the_explorer (λ (_ : unit) _, cycle_graph) (λ _, true)
                  (λ _, tt) (λ _, tt) cycle_graph some_props eq_refl)).
Defined.

Lemma empty_graph_has_its_own_placard_witness :
  (λ _ : GraphData, false) no_assets = false ∧
  size (nodes no_assets) = 0 ∧
  explore (λ _, false) (λ _, tt) (λ _, tt) no_assets some_props =
    (NonIdealState "no-results" "No assets defined"
       (Some "No assets defined using the @asset definition"),
     [call_graphHasCycles]).
Proof.
  split; [reflexivity|]. split; [reflexivity|].
  exact (proj1 (empty_graph_has_its_own_placard (λ _, false) (λ _, tt) (λ _, tt)
                  no_assets some_props eq_refl eq_refl)).
Defined.

Lemma opsInRange_keeps_shortest_witness :
  id node_A ≠ id node_C ∧
  opsInRange_seen (chain_graph node_A node_B node_C) (Some node_A) node_C [] =
    Some (Returns [Some "A"; Some "B"; Some "C"]) ∧
  ([Some "A"; Some "B"; Some "C"] = [] ∨
   ∃ node r', neighbour (chain_graph node_A node_B node_C) node_A node ∧ (id node ∉ []) ∧
     opsInRange_seen (chain_graph node_A node_B node_C) (Some node) node_C ([] ++ [id node_A])
       = Some (Returns r') ∧
     r' ≠ [] ∧ [Some "A"; Some "B"; Some "C"] = opName (definition node_A) :: r').
Proof.
  split; [discriminate|]. split; [vm_compute; reflexivity|].
  refine (proj2 (opsInRange_keeps_shortest (chain_graph node_A node_B node_C)
                   node_A node_C [] [Some "A"; Some "B"; Some "C"] _ _)).
  - discriminate.
  - vm_compute. reflexivity.
Defined.

Lemma opsInRange_chain_witness :
  id node_A ≠ id node_B ∧ id node_B ≠ id node_C ∧ id node_A ≠ id node_C ∧
  opsInRange (chain_graph node_A node_B node_C) (Some node_A) node_C =
    Some (Returns [Some "A"; Some "B"; Some "C"]).
Proof.
  split; [discriminate|]. split; [discriminate|]. split; [discriminate|].
  refine (proj1 (opsInRange_chain node_A node_B node_C _ _ _)); discriminate.
Defined.

(** C4 as stated fails: with ids a, b, c and op names A, B, C the result
    is not the sequence of the ids, in either direction. *)
Lemma opsInRange_chain_counterexample :
  id node_A ≠ id node_B ∧ id node_B ≠ id node_C ∧ id node_A ≠ id node_C ∧
  opsInRange (chain_graph node_A node_B node_C) (Some node_A) node_C
    ≠ Some (Returns [Some (id node_A); Some (id node_B); Some (id node_C)]) ∧
  opsInRange (chain_graph node_A node_B node_C) (Some node_A) node_C
    ≠ Some (Returns [Some (id node_C); Some (id node_B); Some (id node_A)]).
Proof.
  split_and!; try discriminate; intros Hids; vm_compute in Hids; discriminate Hids.
Qed.

Lemma opsInRange_disconnected_witness :
  adjacency_resolved (two_islands node_A node_B) ∧
  ¬ connected (two_islands node_A node_B) (id node_A) (id node_B) ∧
  opsInRange (two_islands node_A node_B) (Some node_A) node_B = Some (Returns []).
Proof.
  assert (id node_A ≠ id node_B) as Hne by discriminate.
  split; [apply two_islands_resolved|]. split; [by apply two_islands_apart|].
  apply opsInRange_disconnected; [apply two_islands_resolved|by apply two_islands_apart].
Defined.

Lemma opsInRange_returns_simple_path_witness :
  opsInRange (chain_graph node_A node_B node_C) (Some node_A) node_C =
    Some (Returns [Some "A"; Some "B"; Some "C"]) ∧
  [Some "A"; Some "B"; Some "C"] ≠ [] ∧
  ∃ p : list Node,
    [Some "A"; Some "B"; Some "C"] = op_names p ∧
    head (id <$> p) = Some (id node_A) ∧
    (id node_A ≠ id node_C → head p = Some node_A) ∧
    last p = Some node_C ∧
    walk (chain_graph node_A node_B node_C) (id <$> p) ∧
    NoDup (id <$> p) ∧
    trail (chain_graph node_A node_B node_C) node_C node_A p ∧
    (∀ i a b, p !! i = Some a → p !! S i = Some b →
       ∃ node, neighbour (chain_graph node_A node_B node_C) a node ∧
               id node = id b ∧ (b = node ∨ b = node_C)).
Proof.
  split; [vm_compute; reflexivity|]. split; [discriminate|].
  apply opsInRange_returns_simple_path; [vm_compute; reflexivity|discriminate].
Defined.

(** ** The search on small graphs *)

(** A node that was searched on one branch is searched again on another:
    [c] is first reached through [b], and the shorter route goes through
    it directly. *)
Example search_takes_the_shortcut :
  opsInRange shortcut_graph (Some node_A) node_D =
    Some (Returns [Some "A"; Some "C"; Some "D"]).
Proof. vm_compute. reflexivity. Qed.

(** Of two candidates of the same length the later one is kept. *)
Example search_keeps_the_later_of_equals :
  opsInRange diamond_graph (Some node_A) node_D =
    Some (Returns [Some "A"; Some "C"; Some "D"]).
Proof. vm_compute. reflexivity. Qed.

Example search_ignores_the_self_loop :
  opsInRange self_loop_graph (Some node_A) node_B = Some (Returns [Some "A"; Some "B"]).
Proof. vm_compute. reflexivity. Qed.

(** A key without a node makes the search throw. *)
Example search_throws_on_a_dangling_key :
  opsInRange dangling_graph (Some node_A) node_B = Some Throws_TypeError.
Proof. vm_compute. reflexivity. Qed.

Example search_without_a_start :
  opsInRange diamond_graph None node_D = Some (Returns []).
Proof. vm_compute. reflexivity. Qed.

(** Shift-click on [c] with [a] selected extends the query by the path. *)
Example shift_click_extends_the_selection :
  onSelectNode (chain_graph node_A node_B node_C)
    {| pipelineName := "job"; solidsQuery := "A"; pathSolids := ["A"] |}
    (Some node_A) {| shiftKey := true; metaKey := false |} node_C =
  Some (Returns (Some {| pipelineName := "job"; solidsQuery := "A,B,C"; pathSolids := ["C"] |})).
Proof. vm_compute. reflexivity. Qed.

(** A running step decides before a step without metadata is read; the
    other way round the read throws. *)
Example resolveState_stops_at_running :
  resolveState {| steps := <["a" := {| state := RUNNING |}]> ∅; logCaptureSteps := None |}
    {| stepKeys := ["a"; "missing"]; pid := None |} = Returns RUNNING.
Proof. vm_compute. reflexivity. Qed.

Example resolveState_throws_on_missing_step :
  resolveState {| steps := <["a" := {| state := RUNNING |}]> ∅; logCaptureSteps := None |}
    {| stepKeys := ["missing"; "a"]; pid := None |} = Throws_TypeError.
Proof. vm_compute. reflexivity. Qed.

(** * Further properties *)

(** ** The path search: termination, completeness, optimality *)


(** X1. The search ends on every graph, cyclic ones and ones with
    self-loops included, for every start, target and [seen]: it returns or
    throws, and the answer is the same for every amount of fuel from
    [search_fuel] on. *)
Theorem opsInRange_ends_on_every_graph (graph : GraphData) (from : option Node)
    (to : Node) (seen : list string) :
  ∃ c, opsInRange_seen graph from to seen = Some c ∧
       ∀ fuel, search_fuel graph ≤ fuel → opsInRange_fuel fuel graph from to seen = Some c.
Proof.
  destruct (opsInRange_seen_ends graph to from seen) as [c Hc].
  exists c. split; [done|]. intros fuel Hfuel.
  by apply (opsInRange_fuel_mono _ _ (search_fuel graph)).
Qed.

Lemma walk_suffix (graph : GraphData) (l1 l2 : list string) :
  l2 ≠ [] → walk graph (l1 ++ l2) → walk graph l2.
Proof.
  intros Hl2. induction l1 as [|a l1 IH]; [done|].
  cbn [app]. intros Hwalk. apply IH. inversion Hwalk as [a' Heq|a' b p Hlink Hrest Heq].
  - destruct l1, l2; done.
  - done.
Qed.

Lemma walk_head_tail_nodes (graph : GraphData) (p : list string) :
  walk graph p → ∀ i, i ∈ tail p → i ∈ node_ids graph.
Proof.
  induction 1 as [a|a b p (n & node & _ & Hnode & Hid) _ IH]; intros i Hi.
  - by apply elem_of_nil in Hi.
  - cbn [tail] in *. apply elem_of_cons in Hi as [->|Hi]; [|by apply IH].
    unfold node_ids. apply list_elem_of_fmap. exists (n, node).
    split; [done|]. by apply elem_of_map_to_list.
Qed.

(** Every walk contains a walk between the same ends without repeated
    ids. *)
Lemma walk_simplify (graph : GraphData) (p : list string) :
  walk graph p →
  ∃ q, walk graph q ∧ NoDup q ∧ head q = head p ∧ last q = last p ∧ length q ≤ length p.
Proof.
  induction 1 as [a|a b p Hlink Hwalk (q & Hq & Hnodup & Hhead & Hlast & Hlen)].
  - exists [a]. split_and!; try done; [apply walk_end|apply NoDup_singleton].
  - destruct (decide (a ∈ q)) as [Hin|Hout].
    + apply list_elem_of_split in Hin as (l1 & l2 & ->).
      exists (a :: l2). split_and!.
      * by apply (walk_suffix graph l1).
      * by apply NoDup_app in Hnodup as (_ & _ & ?).
      * done.
      * by rewrite last_cons_cons, <- Hlast, last_app_cons.
      * rewrite length_app in Hlen. cbn [length] in *. lia.
    + destruct q as [|b' q]; [done|]. injection Hhead as ->.
      exists (a :: b :: q). split_and!.
      * by apply walk_step.
      * by apply NoDup_cons.
      * done.
      * done.
      * cbn [length] in *. lia.
Qed.

Lemma links_walk (graph : GraphData) (a b : string) :
  rtc (linked graph) a b → ∃ p, walk graph p ∧ head p = Some a ∧ last p = Some b.
Proof.
  induction 1 as [a|a a' b Hlink _ (p & Hwalk & Hhead & Hlast)].
  - exists [a]. split; [apply walk_end|done].
  - destruct p as [|a'' p]; [done|]. injection Hhead as ->.
    exists (a :: a' :: p). split; [by apply walk_step|done].
Qed.

Section Optimality.
Variable graph : GraphData.
Variable to : Node.

(** The search is at least as good as any walk without repeated ids that
    avoids [seen] after its first id. *)
Lemma opsInRange_seen_beats_walk (p : list string) :
  walk graph p → ∀ x seen r,
  NoDup p → head p = Some (id x) → last p = Some (id to) →
  (∀ i, i ∈ tail p → i ∉ seen) →
  opsInRange_seen graph (Some x) to seen = Some (Returns r) →
  r ≠ [] ∧ length r ≤ length p.
Proof.
  induction 1 as [a|a b p Hlink Hwalk IH]; intros x seen r Hnodup Hhead Hlast Havoid;
    rewrite opsInRange_seen_unfold; unfold opsInRange_body.
  - injection Hhead as ->. injection Hlast as Hsame.
    rewrite decide_True by done. intros [= <-]. done.
  - injection Hhead as ->.
    destruct (decide (id x = id to)) as [Hsame|Hne].
    { intros [= <-]. cbn [length]. split; [done|lia]. }
    intros (_ & Hall & _)%for_adjacent_returns.
    destruct Hlink as (n & node & Hn & Hnode & <-).
    apply NoDup_cons in Hnodup as [Hfresh Hnodup].
    destruct (Hall node) as (r' & Hr' & Hshort).
    { unfold adjacent. apply list_elem_of_fmap. exists n. done. }
    { apply Havoid. left. }
    destruct (IH node (seen ++ [id x]) r') as [Hfound Hlen]; try done.
    { intros i Hi. rewrite elem_of_app, list_elem_of_singleton. intros [Hseen| ->].
      - revert Hseen. apply Havoid. cbn [tail]. by right.
      - apply Hfresh. by right. }
    destruct (Hshort Hfound) as [? ?]. cbn [length] in *. split; [done|lia].
Qed.

End Optimality.

(** X2. The result is a shortest connection: when the search returns,
    then for every sequence of ids from the start to the target in which
    each id is linked to the next, the result is non-empty and has at most
    as many elements as the sequence. *)
Theorem opsInRange_is_shortest (graph : GraphData) (from to : Node) (r : ops)
    (p : list string) :
  opsInRange graph (Some from) to = Some (Returns r) →
  walk graph p → head p = Some (id from) → last p = Some (id to) →
  r ≠ [] ∧ length r ≤ length p.
Proof.
  intros Hr Hwalk Hhead Hlast.
  destruct (walk_simplify graph p Hwalk) as (q & Hq & Hnodup & Hqhead & Hqlast & Hlen).
  destruct (opsInRange_seen_beats_walk graph to q Hq from [] r) as [Hfound Hshort];
    try done; try congruence.
  { intros i _. apply not_elem_of_nil. }
  split; [done|lia].
Qed.

(** X3. In a graph whose upstream and downstream keys all resolve to
    nodes the search returns, and its result is non-empty exactly when the
    target can be reached from the start along links. *)
Theorem opsInRange_finds_what_is_reachable (graph : GraphData) (from to : Node) :
  adjacency_resolved graph →
  ∃ r, opsInRange graph (Some from) to = Some (Returns r) ∧
       (r ≠ [] ↔ rtc (linked graph) (id from) (id to)).
Proof.
  intros Hres.
  destruct (opsInRange_seen_ends graph to (Some from) []) as [[r|] Hr].
  - exists r. split; [done|]. split.
    + by apply (opsInRange_fuel_links _ _ _ _ _ _ Hr).
    + intros (p & Hwalk & Hhead & Hlast)%links_walk.
      destruct (walk_simplify graph p Hwalk) as (q & Hq & Hnodup & Hqhead & Hqlast & _).
      destruct (opsInRange_seen_beats_walk graph to q Hq from [] r) as [Hfound _];
        try done; try congruence.
      intros i _. apply not_elem_of_nil.
  - exfalso. by apply (opsInRange_fuel_no_throw _ _ _ _ _ Hres Hr).
Qed.

(** X4. A result never has more elements than the graph has nodes, plus
    one for the start, which need not be a node of the graph. *)
Theorem opsInRange_result_is_short (graph : GraphData) (from to : Node) (r : ops) :
  opsInRange graph (Some from) to = Some (Returns r) →
  length r ≤ size (nodes graph) + 1.
Proof.
  intros Hr. destruct (decide (r = [])) as [->|Hne]; [cbn; lia|].
  destruct (opsInRange_fuel_path _ _ _ _ _ _ Hr Hne)
    as (p & -> & _ & _ & _ & Hwalk & Hnodup & _).
  unfold op_names. rewrite length_fmap, <- (length_fmap id p).
  pose proof (walk_head_tail_nodes _ _ Hwalk) as Hnodes.
  destruct (id <$> p) as [|a ids]; [cbn; lia|].
  cbn [tail length] in *. apply NoDup_cons in Hnodup as [_ Hnodup].
  assert (length ids ≤ length (node_ids graph)) as Hle.
  { apply submseteq_length, NoDup_submseteq; done. }
  unfold node_ids in Hle. rewrite length_fmap, length_map_to_list in Hle. lia.
Qed.

(** ** Splitting and joining *)

Lemma split_comma_split_at (s : string) : split_comma s = split_at "," s.
Proof.
  induction s as [|c s IH]; [done|]. cbn [split_comma split_at]. by rewrite IH.
Qed.

Lemma split_at_not_nil (sep : ascii) (s : string) : split_at sep s ≠ [].
Proof.
  destruct s as [|c s]; [done|]. cbn [split_at].
  destruct (decide (c = sep)); [done|]. by destruct (split_at sep s).
Qed.

Lemma split_at_pieces_lack (sep : ascii) (s : string) : Forall (lacks sep) (split_at sep s).
Proof.
  induction s as [|c s IH]; cbn [split_at].
  - by repeat constructor.
  - destruct (decide (c = sep)); [by constructor|].
    destruct (split_at sep s) as [|piece pieces]; [by repeat constructor|].
    apply Forall_cons in IH as [? ?]. by constructor.
Qed.

Lemma split_at_lacks (sep : ascii) (s : string) : lacks sep s → split_at sep s = [s].
Proof.
  induction s as [|c s IH]; [done|]. intros [Hc Hs]. cbn [split_at].
  rewrite decide_False by done. by rewrite IH.
Qed.

Lemma append_nil_l (s : string) : "" +:+ s = s.
Proof. reflexivity. Qed.

Lemma append_cons (c : ascii) (s t : string) : String c s +:+ t = String c (s +:+ t).
Proof. reflexivity. Qed.

Lemma split_at_app (sep : ascii) (s t : string) :
  lacks sep s → split_at sep (s +:+ String sep t) = s :: split_at sep t.
Proof.
  induction s as [|c s IH].
  - intros _. rewrite append_nil_l. cbn [split_at]. by rewrite decide_True.
  - intros [Hc Hs]. rewrite append_cons. cbn [split_at]. rewrite decide_False by done.
    by rewrite IH.
Qed.

Lemma concat_cons_cons (sep x y : string) (l : list string) :
  String.concat sep (x :: y :: l) = x +:+ sep +:+ String.concat sep (y :: l).
Proof. reflexivity. Qed.

(** Joining the pieces of a split gives the string back. *)
Lemma concat_split_at (sep : ascii) (s : string) :
  String.concat (String sep "") (split_at sep s) = s.
Proof.
  induction s as [|c s IH]; [done|]. cbn [split_at].
  destruct (decide (c = sep)) as [->|Hc].
  - pose proof (split_at_not_nil sep s) as Hne.
    destruct (split_at sep s) as [|piece pieces]; [done|].
    rewrite concat_cons_cons, IH. reflexivity.
  - destruct (split_at sep s) as [|piece pieces] eqn:Hsplit.
    + by apply split_at_not_nil in Hsplit.
    + destruct pieces as [|piece' pieces].
      * cbn [String.concat] in *. by rewrite IH.
      * rewrite concat_cons_cons in *. rewrite append_cons. by rewrite IH.
Qed.

(** Splitting a join of pieces without the separator gives the pieces
    back, unless there is no piece at all. *)
Lemma split_at_concat (sep : ascii) (pieces : list string) :
  pieces ≠ [] → Forall (lacks sep) pieces →
  split_at sep (String.concat (String sep "") pieces) = pieces.
Proof.
  induction pieces as [|x pieces IH]; [done|]. intros _ [Hx Hrest]%Forall_cons.
  destruct pieces as [|y pieces].
  - by apply split_at_lacks.
  - rewrite concat_cons_cons, append_cons, append_nil_l. rewrite split_at_app by done.
    by rewrite IH.
Qed.

Lemma join_comma_strings (pieces : list string) :
  join_comma (Some <$> pieces) = String.concat "," pieces.
Proof.
  unfold join_comma. f_equal. induction pieces as [|x pieces IH]; [done|].
  change (x :: map (default "") (Some <$> pieces) = x :: pieces). by rewrite IH.
Qed.

(** [split(',')] followed by [join(',')] gives every string back, and
    [join(',')] followed by [split(',')] gives back every non-empty list of
    pieces that contain no comma; a split never gives an empty list, and
    its pieces contain no comma. *)
Lemma split_and_join_are_inverse (s : string) (pieces : list string) :
  join_comma (Some <$> split_comma s) = s ∧
  split_comma s ≠ [] ∧
  Forall (lacks ",") (split_comma s) ∧
  (pieces ≠ [] → Forall (lacks ",") pieces →
   split_comma (join_comma (Some <$> pieces)) = pieces).
Proof.
  rewrite !join_comma_strings, !split_comma_split_at. split_and!.
  - apply (concat_split_at ","%char).
  - apply split_at_not_nil.
  - apply split_at_pieces_lack.
  - apply (split_at_concat ","%char).
Qed.

(** ** [uniq] and [without] *)

Section Uniq.
Context {A : Type} `{EqDecision A}.

Lemma elem_of_uniq_from (kept l : list A) (x : A) :
  x ∈ uniq_from kept l ↔ x ∈ l ∧ x ∉ kept.
Proof.
  revert kept. induction l as [|y l IH]; intros kept; cbn [uniq_from].
  - rewrite elem_of_nil. tauto.
  - case_bool_decide as Hy.
    + rewrite IH, elem_of_cons. split; [tauto|]. intros [[->|?] ?]; tauto.
    + rewrite !elem_of_cons, IH, elem_of_cons.
      destruct (decide (x = y)) as [->|?]; tauto.
Qed.

Lemma NoDup_uniq_from (kept l : list A) : NoDup (uniq_from kept l).
Proof.
  revert kept. induction l as [|y l IH]; intros kept; cbn [uniq_from]; [constructor|].
  case_bool_decide; [done|]. apply NoDup_cons. split; [|done].
  rewrite elem_of_uniq_from, elem_of_cons. tauto.
Qed.

Lemma uniq_from_NoDup (kept l : list A) :
  NoDup l → (∀ x, x ∈ l → x ∉ kept) → uniq_from kept l = l.
Proof.
  revert kept. induction l as [|y l IH]; intros kept; [done|].
  intros [Hy Hl]%NoDup_cons Hfresh. cbn [uniq_from].
  rewrite bool_decide_eq_false_2 by (apply Hfresh; left). f_equal.
  apply IH; [done|]. intros x Hx. rewrite elem_of_cons. intros [->|Hk]; [done|].
  revert Hk. apply Hfresh. by right.
Qed.

Lemma uniq_from_app (kept l1 l2 : list A) :
  uniq_from kept (l1 ++ l2) = uniq_from kept l1 ++ uniq_from (reverse l1 ++ kept) l2.
Proof.
  revert kept. induction l1 as [|y l1 IH]; intros kept; [done|].
  cbn [app uniq_from]. rewrite reverse_cons, <- app_assoc. cbn [app].
  case_bool_decide as Hy.
  - rewrite IH. f_equal. clear IH. revert kept Hy.
    generalize (reverse l1). intros l kept Hy. revert l.
    induction l2 as [|z l2 IH2]; intros l; [done|]. cbn [uniq_from].
    rewrite (bool_decide_ext (z ∈ l ++ kept) (z ∈ l ++ y :: kept)).
    + destruct (bool_decide _); [done|]. f_equal. apply (IH2 (z :: l)).
    + rewrite !elem_of_app, elem_of_cons. split; [tauto|].
      intros [?|[->|?]]; tauto.
  - cbn [app]. by rewrite IH.
Qed.

(** [uniq] keeps exactly the elements of the list, each once, and
    changes nothing in a list without duplicates; [without] removes every
    occurrence of the value and nothing else. *)
Lemma uniq_and_without (l : list A) (x : A) :
  NoDup (uniq l) ∧
  (∀ y, y ∈ uniq l ↔ y ∈ l) ∧
  (NoDup l → uniq l = l) ∧
  (x ∉ without l x) ∧
  (∀ y, y ∈ without l x ↔ y ∈ l ∧ y ≠ x) ∧
  (x ∉ l → without l x = l).
Proof.
  unfold uniq, without. split_and!.
  - apply NoDup_uniq_from.
  - intros y. rewrite elem_of_uniq_from, elem_of_nil. tauto.
  - intros Hl. apply uniq_from_NoDup; [done|]. intros y _. apply not_elem_of_nil.
  - rewrite list_elem_of_filter. tauto.
  - intros y. rewrite list_elem_of_filter. tauto.
  - intros Hx. induction l as [|y l IH]; [done|].
    apply not_elem_of_cons in Hx as [Hne Hx]. rewrite filter_cons.
    rewrite decide_True by done. by rewrite IH.
Qed.

End Uniq.

Lemma uniq_from_fmap_Some (kept l : list string) :
  uniq_from (Some <$> kept) (Some <$> l) = Some <$> uniq_from kept l.
Proof.
  revert kept. induction l as [|x l IH]; intros kept; [done|].
  cbn [fmap list_fmap uniq_from].
  rewrite (bool_decide_ext (Some x ∈ list_fmap _ _ Some kept) (x ∈ kept))
    by apply (list_elem_of_fmap_inj Some).
  destruct (bool_decide (x ∈ kept)); [apply IH|].
  rewrite fmap_cons. f_equal. apply (IH (x :: kept)).
Qed.

Lemma uniq_fmap_Some (l : list string) : uniq (Some <$> l) = Some <$> uniq l.
Proof. apply (uniq_from_fmap_Some []). Qed.

Lemma without_fmap_Some (l : list string) (x : string) :
  without (Some <$> l) (Some x) = Some <$> without l x.
Proof.
  unfold without. induction l as [|y l IH]; [done|].
  cbn [fmap list_fmap]. rewrite !filter_cons.
  destruct (decide (y ≠ x)) as [Hne|Heq].
  - rewrite decide_True by congruence. cbn [fmap list_fmap]. f_equal. apply IH.
  - rewrite decide_False; [apply IH|]. intros Hne. apply Heq. congruence.
Qed.

Lemma uniq_snoc_fresh (l : list string) (x : string) :
  x ∉ l → uniq (l ++ [x]) = uniq l ++ [x].
Proof.
  intros Hx. unfold uniq. rewrite uniq_from_app. f_equal. cbn [uniq_from].
  rewrite bool_decide_eq_false_2; [done|].
  rewrite app_nil_r, elem_of_reverse. done.
Qed.

(** ** The click handler of a node *)

Section Click.
Variable graphData : GraphData.
Variable path : PipelineExplorerPath.
Variable selected : option Node.
Variable e : MouseEvent.
Variable node : Node.

Lemma onSelectNode_unfold (op : string) :
  opName (definition node) = Some op → op ≠ "" →
  onSelectNode graphData path selected e node =
    match (if searches selected e then opsInRange graphData selected node
           else Some (Returns [Some op])) with
    | None => None
    | Some Throws_TypeError => Some Throws_TypeError
    | Some (Returns added) => Some (Returns (Some (reported_path path e node op added)))
    end.
Proof.
  intros Hop Hne. unfold onSelectNode, searches, reported_path, appends. rewrite Hop.
  rewrite bool_decide_eq_false_2 by done.
  destruct selected as [s|].
  - rewrite (bool_decide_eq_true_2 (is_Some (Some s))) by done.
    destruct (shiftKey e); cbn [andb]; done.
  - rewrite (bool_decide_eq_false_2 (is_Some None)) by (by intros [? ?]).
    rewrite andb_false_r. done.
Qed.

Lemma onSelectNode_no_op :
  truthy (opName (definition node)) = false →
  onSelectNode graphData path selected e node = Some (Returns None).
Proof.
  unfold onSelectNode, truthy. destruct (opName (definition node)) as [op|]; [|done].
  destruct (bool_decide (op = "")); done.
Qed.

Lemma truthy_Some (o : option string) :
  truthy o = true ↔ ∃ s, o = Some s ∧ s ≠ "".
Proof.
  unfold truthy. destruct o as [s|].
  - rewrite negb_true_iff, bool_decide_eq_false. split; [eauto|].
    by intros (? & [= <-] & ?).
  - split; [done|]. by intros (? & ? & ?).
Qed.

End Click.

(** X5. A click always ends.  It does nothing (reports no path) exactly
    when the node has no op name or an empty one; it throws exactly when
    the node has an op name, shift is held with a node selected, and the
    path search throws -- also when the job of the node is another one, so
    that the result of the search would not be used. *)
Theorem click_ends_and_throws_only_in_search (graphData : GraphData)
    (path : PipelineExplorerPath) (selected : option Node) (e : MouseEvent) (node : Node) :
  ∃ c, onSelectNode graphData path selected e node = Some c ∧
    (c = Returns None ↔ truthy (opName (definition node)) = false) ∧
    (c = Throws_TypeError ↔
       truthy (opName (definition node)) = true ∧ searches selected e = true ∧
       opsInRange graphData selected node = Some Throws_TypeError).
Proof.
  destruct (truthy (opName (definition node))) eqn:Hop.
  - apply truthy_Some in Hop as (op & Hop & Hne).
    rewrite (onSelectNode_unfold _ _ _ _ _ op Hop Hne).
    destruct (searches selected e).
    + destruct (opsInRange_seen_ends graphData node selected []) as [c Hc].
      unfold opsInRange. rewrite Hc. destruct c as [added|].
      * eexists. split; [done|]. intuition congruence.
      * eexists. split; [done|]. intuition congruence.
    + eexists. split; [done|]. intuition congruence.
  - rewrite onSelectNode_no_op by done. eexists. split; [done|]. intuition congruence.
Qed.

Lemma elem_of_fmap_Some (l : list string) (x : string) :
  Some x ∈ Some <$> l ↔ x ∈ l.
Proof. apply (list_elem_of_fmap_inj Some). Qed.

Lemma split_comma_uniq (pieces : list string) :
  pieces ≠ [] → Forall (lacks ",") pieces →
  split_comma (String.concat "," (uniq pieces)) = uniq pieces.
Proof.
  intros Hne Hlack. rewrite split_comma_split_at. apply (split_at_concat ","%char).
  - destruct pieces as [|x pieces]; [done|]. intros Hnil.
    assert (x ∈ uniq (x :: pieces)) as Hx.
    { unfold uniq. rewrite elem_of_uniq_from. split; [left|apply not_elem_of_nil]. }
    rewrite Hnil in Hx. by apply elem_of_nil in Hx.
  - apply Forall_forall. intros x Hx. unfold uniq in Hx.
    apply elem_of_uniq_from in Hx as [Hx _]. by apply (proj1 (Forall_forall _ _) Hlack).
Qed.

(** X7. Toggling off: when the click extends the selection and the op
    name of the node is already a piece of the query, the new query is the
    old one without that piece: the op name is no piece of it any more, and
    every other piece still is. *)
Theorem click_removes_a_selected_op (graphData : GraphData)
    (path path' : PipelineExplorerPath) (selected : option Node) (e : MouseEvent)
    (node : Node) (op : string) :
  onSelectNode graphData path selected e node = Some (Returns (Some path')) →
  opName (definition node) = Some op →
  appends path e node = true →
  op ∈ split_comma (solidsQuery path) →
  solidsQuery path' = String.concat "," (without (split_comma (solidsQuery path)) op) ∧
  (op ∉ split_comma (solidsQuery path')) ∧
  (∀ piece, piece ∈ split_comma (solidsQuery path) → piece ≠ op →
            piece ∈ split_comma (solidsQuery path')).
Proof.
  intros Hclick Hop Happ Hin.
  assert (op ≠ "") as Hne.
  { intros ->. rewrite onSelectNode_no_op in Hclick; [done|].
    rewrite Hop. unfold truthy. by rewrite bool_decide_eq_true_2. }
  rewrite (onSelectNode_unfold _ _ _ _ _ op Hop Hne) in Hclick.
  destruct (if searches selected e then _ else _) as [[added|]|]; [|done..].
  injection Hclick as <-. unfold reported_path. cbn [solidsQuery]. rewrite Happ.
  rewrite bool_decide_eq_true_2 by (by rewrite elem_of_fmap_Some).
  rewrite without_fmap_Some, join_comma_strings.
  split; [done|].
  pose proof (split_at_pieces_lack ","%char (solidsQuery path)) as Hlack.
  rewrite <- split_comma_split_at in Hlack.
  destruct (without (split_comma (solidsQuery path)) op) as [|x kept] eqn:Hkept.
  - split.
    + cbn. rewrite list_elem_of_singleton. done.
    + intros piece Hpiece Hother. exfalso.
      assert (piece ∈ without (split_comma (solidsQuery path)) op) as Hk
        by (unfold without; by apply list_elem_of_filter).
      rewrite Hkept in Hk. by apply elem_of_nil in Hk.
  - rewrite split_comma_split_at, (split_at_concat ","%char); [|done|].
    + rewrite <- Hkept. unfold without. split.
      * rewrite list_elem_of_filter. tauto.
      * intros piece Hpiece Hother. by apply list_elem_of_filter.
    + rewrite <- Hkept. unfold without. apply Forall_forall.
      intros piece [_ Hpiece]%list_elem_of_filter.
      by apply (proj1 (Forall_forall _ _) Hlack).
Qed.

(** X8. Adding one op: when the click extends the selection, runs no
    search, and the op name of the node is not yet a piece of the query,
    the new query is the old pieces, each once, followed by the op name. *)
Theorem click_adds_the_clicked_op (graphData : GraphData) (path : PipelineExplorerPath)
    (selected : option Node) (e : MouseEvent) (node : Node) (op : string) :
  opName (definition node) = Some op → op ≠ "" →
  appends path e node = true →
  searches selected e = false →
  op ∉ split_comma (solidsQuery path) →
  ∃ path', onSelectNode graphData path selected e node = Some (Returns (Some path')) ∧
    solidsQuery path' = String.concat "," (uniq (split_comma (solidsQuery path)) ++ [op]) ∧
    (lacks "," op →
     split_comma (solidsQuery path') = uniq (split_comma (solidsQuery path)) ++ [op]).
Proof.
  intros Hop Hne Happ Hsearch Hout.
  rewrite (onSelectNode_unfold _ _ _ _ _ op Hop Hne), Hsearch.
  eexists. split; [done|]. unfold reported_path. cbn [solidsQuery]. rewrite Happ.
  rewrite bool_decide_eq_false_2 by (by rewrite elem_of_fmap_Some).
  change [Some op] with (Some <$> [op]).
  rewrite <- fmap_app, uniq_fmap_Some, join_comma_strings, uniq_snoc_fresh by done.
  split; [done|]. intros Hlack.
  rewrite split_comma_split_at. apply (split_at_concat ","%char).
  - by destruct (uniq _).
  - apply Forall_app. split; [|by repeat constructor].
    apply Forall_forall. intros x Hx. unfold uniq in Hx.
    apply elem_of_uniq_from in Hx as [Hx _]. revert x Hx. apply Forall_forall.
    rewrite split_comma_split_at. apply split_at_pieces_lack.
Qed.

(** X9. A shift-click on a node that cannot be reached from the selected
    node adds nothing: in a graph whose keys resolve, the new query has the
    old pieces, each once, and not the op name of the clicked node; a query
    without repeated pieces stays as it is. *)
Theorem shift_click_out_of_reach_adds_nothing (graphData : GraphData)
    (path : PipelineExplorerPath) (s : Node) (e : MouseEvent) (node : Node) (op : string) :
  adjacency_resolved graphData →
  ¬ rtc (linked graphData) (id s) (id node) →
  opName (definition node) = Some op → op ≠ "" →
  shiftKey e = true →
  appends path e node = true →
  op ∉ split_comma (solidsQuery path) →
  ∃ path', onSelectNode graphData path (Some s) e node = Some (Returns (Some path')) ∧
    split_comma (solidsQuery path') = uniq (split_comma (solidsQuery path)) ∧
    (op ∉ split_comma (solidsQuery path')) ∧
    (NoDup (split_comma (solidsQuery path)) → solidsQuery path' = solidsQuery path).
Proof.
  intros Hres Hfar Hop Hne Hshift Happ Hout.
  assert (opsInRange graphData (Some s) node = Some (Returns [])) as Hr.
  { destruct (opsInRange_seen_ends graphData node (Some s) []) as [[r|] Hr].
    - unfold opsInRange. rewrite Hr. destruct r as [|o r]; [done|].
      exfalso. apply Hfar. by apply (opsInRange_fuel_links _ _ _ _ _ _ Hr).
    - exfalso. by apply (opsInRange_fuel_no_throw _ _ _ _ _ Hres Hr). }
  rewrite (onSelectNode_unfold _ _ _ _ _ op Hop Hne). unfold searches. rewrite Hshift.
  rewrite bool_decide_eq_true_2 by done. cbn [andb]. rewrite Hr.
  eexists. split; [done|]. unfold reported_path. cbn [solidsQuery]. rewrite Happ.
  rewrite bool_decide_eq_false_2 by (by rewrite elem_of_fmap_Some).
  rewrite app_nil_r, uniq_fmap_Some, join_comma_strings.
  pose proof (split_at_pieces_lack ","%char (solidsQuery path)) as Hlack.
  pose proof (split_at_not_nil ","%char (solidsQuery path)) as Hsome.
  rewrite <- split_comma_split_at in Hlack, Hsome.
  rewrite split_comma_uniq by done. split_and!.
  - done.
  - unfold uniq. rewrite elem_of_uniq_from. tauto.
  - intros Hnodup. unfold uniq. rewrite uniq_from_NoDup; [|done|].
    + rewrite split_comma_split_at. apply (concat_split_at ","%char).
    + intros x _. apply not_elem_of_nil.
Qed.

(** X10. A shift-click on a node that the search reaches from the selected
    node adds the whole path: when the op names along it contain no comma
    and the op name of the clicked node is not yet in the query, the pieces
    of the new query are the old pieces followed by the op names of the
    path, each once. *)
Theorem shift_click_adds_the_path (graphData : GraphData) (path : PipelineExplorerPath)
    (s : Node) (e : MouseEvent) (node : Node) (op : string) (names : list string) :
  opsInRange graphData (Some s) node = Some (Returns (Some <$> names)) →
  Forall (lacks ",") names →
  opName (definition node) = Some op → op ≠ "" →
  shiftKey e = true →
  appends path e node = true →
  op ∉ split_comma (solidsQuery path) →
  ∃ path', onSelectNode graphData path (Some s) e node = Some (Returns (Some path')) ∧
    split_comma (solidsQuery path') = uniq (split_comma (solidsQuery path) ++ names).
Proof.
  intros Hr Hnames Hop Hne Hshift Happ Hout.
  rewrite (onSelectNode_unfold _ _ _ _ _ op Hop Hne). unfold searches. rewrite Hshift.
  rewrite bool_decide_eq_true_2 by done. cbn [andb]. rewrite Hr.
  eexists. split; [done|]. unfold reported_path. cbn [solidsQuery]. rewrite Happ.
  rewrite bool_decide_eq_false_2 by (by rewrite elem_of_fmap_Some).
  rewrite <- fmap_app, uniq_fmap_Some, join_comma_strings.
  pose proof (split_at_pieces_lack ","%char (solidsQuery path)) as Hlack.
  pose proof (split_at_not_nil ","%char (solidsQuery path)) as Hsome.
  rewrite <- split_comma_split_at in Hlack, Hsome.
  apply split_comma_uniq.
  - by destruct (split_comma (solidsQuery path)).
  - by apply Forall_app.
Qed.

(** ** The status roll-up, continued *)

Section RollUpErrors.
Context {A : Type}.
Variable p : A → completion bool.

Lemma array_some_false (l : list A) :
  array_some p l = Returns false ↔ Forall (λ x, p x = Returns false) l.
Proof.
  induction l as [|x l IH]; cbn [array_some].
  - split; [constructor|done].
  - rewrite Forall_cons, <- IH. destruct (p x) as [[|]|]; cbn [mbind completion_bind];
      intuition congruence.
Qed.

Lemma array_some_throws (l : list A) :
  array_some p l = Throws_TypeError ↔
  ∃ l1 x l2, l = l1 ++ x :: l2 ∧ p x = Throws_TypeError ∧
             Forall (λ y, p y = Returns false) l1.
Proof.
  induction l as [|x l IH]; cbn [array_some].
  - split; [done|]. intros (l1 & ? & ? & Heq & _). by destruct l1.
  - destruct (p x) as [[|]|] eqn:Hx; cbn [mbind completion_bind].
    + split; [done|]. intros ([|y l1] & z & l2 & Heq & Hz & Hl1).
      * injection Heq as <- <-. congruence.
      * injection Heq as <- ->. apply Forall_cons in Hl1 as [? _]. congruence.
    + rewrite IH. split.
      * intros (l1 & z & l2 & -> & Hz & Hl1). exists (x :: l1), z, l2.
        split_and!; [done..|]. by constructor.
      * intros ([|y l1] & z & l2 & Heq & Hz & Hl1).
        -- injection Heq as <- <-. congruence.
        -- injection Heq as <- ->. apply Forall_cons in Hl1 as [_ ?]. by exists l1, z, l2.
    + split; [|done]. intros _. exists [], x, l. by split_and!.
Qed.

End RollUpErrors.

Lemma step_is_throws (metadata : IRunMetadataDict) (s : IStepState) (key : string) :
  step_is metadata s key = Throws_TypeError ↔ unreadable metadata key.
Proof.
  unfold step_is, read_entry, unreadable.
  destruct (js_get (steps metadata) key); cbn; split; done.
Qed.

Lemma step_is_returns (metadata : IRunMetadataDict) (s : IStepState) (key : string) :
  ¬ unreadable metadata key → ∃ b, step_is metadata s key = Returns b.
Proof.
  unfold step_is, read_entry, unreadable.
  destruct (js_get (steps metadata) key); cbn; eauto. done.
Qed.

Lemma step_is_false (metadata : IRunMetadataDict) (s : IStepState) (key : string) :
  step_is metadata s key = Returns false ↔
  ¬ unreadable metadata key ∧ ∀ m, steps metadata !! key = Some m → state m ≠ s.
Proof.
  unfold step_is, read_entry, unreadable, js_get.
  destruct (steps metadata !! key) as [m|]; cbn.
  - split.
    + intros [= Hm]. apply bool_decide_eq_false in Hm. split; [done|].
      intros m' [= <-] Hs. apply Hm. by rewrite Hs.
    + intros [_ Hm]. rewrite bool_decide_eq_false_2; [done|].
      intros [= Hs]. by apply (Hm m).
  - destruct (bool_decide (key ∈ object_prototype_members)); cbn.
    + split; [|done]. intros _. split; [done|]. by intros m.
    + split; [done|]. by intros [? _].
Qed.

(** An inherited member is a step in no state. *)
Lemma step_is_inherited (metadata : IRunMetadataDict) (s : IStepState) (key : string) :
  steps metadata !! key = None → key ∈ object_prototype_members →
  step_is metadata s key = Returns false.
Proof.
  intros Hnone Hproto. unfold step_is, read_entry, js_get. rewrite Hnone.
  by rewrite bool_decide_eq_true_2.
Qed.

Section RollUpReturns.
Context {A : Type}.
Variable p : A → completion bool.

Lemma array_some_returns (l : list A) :
  Forall (λ x, ∃ b, p x = Returns b) l → ∃ b, array_some p l = Returns b.
Proof.
  induction 1 as [|x l [b Hx] _ [b' IH]]; cbn [array_some]; [eauto|].
  rewrite Hx. cbn [mbind completion_bind]. destruct b; eauto.
Qed.

Lemma array_every_returns (l : list A) :
  Forall (λ x, ∃ b, p x = Returns b) l → ∃ b, array_every p l = Returns b.
Proof.
  induction 1 as [|x l [b Hx] _ [b' IH]]; cbn [array_every]; [eauto|].
  rewrite Hx. cbn [mbind completion_bind]. destruct b; eauto.
Qed.

Lemma array_every_true (l : list A) :
  array_every p l = Returns true → Forall (λ x, p x = Returns true) l.
Proof.
  induction l as [|x l IH]; cbn [array_every]; [intros _; constructor|].
  destruct (p x) as [[|]|] eqn:Hx; cbn [mbind completion_bind]; [|done..].
  intros Hl. constructor; [done|by apply IH].
Qed.

End RollUpReturns.

(** The states of a group all of whose steps have metadata. *)
Lemma group_states_present (metadata : IRunMetadataDict) (logCapture : ILogCaptureInfo) :
  Forall (λ key, is_Some (steps metadata !! key)) (stepKeys logCapture) →
  group_states metadata logCapture
    ((λ key, from_option state RUNNING (steps metadata !! key)) <$> stepKeys logCapture).
Proof.
  unfold group_states. induction 1 as [|key keys [m Hm] _ IH]; [constructor|].
  rewrite fmap_cons. constructor; [|done]. by rewrite Hm.
Qed.

(** A group whose keys can all be read resolves to some state. *)
Lemma resolveState_readable (metadata : IRunMetadataDict) (logCapture : ILogCaptureInfo) :
  Forall (λ key, ¬ unreadable metadata key) (stepKeys logCapture) →
  ∃ s, resolveState metadata logCapture = Returns s.
Proof.
  intros Hall.
  assert (∀ s, Forall (λ key, ∃ b, step_is metadata s key = Returns b)
                 (stepKeys logCapture)) as Hreturns.
  { intros s. eapply Forall_impl; [exact Hall|]. intros key. apply step_is_returns. }
  unfold resolveState.
  destruct (array_some_returns _ _ (Hreturns RUNNING)) as [r ->].
  destruct (array_some_returns _ _ (Hreturns SKIPPED)) as [k ->].
  destruct (array_every_returns _ _ (Hreturns SUCCEEDED)) as [a ->].
  cbn [mbind completion_bind]. destruct r, k, a; eauto.
Qed.

(** X12. [resolveState] throws exactly when some step key is unreadable
    -- no entry in the metadata under it and no member inherited from
    [Object.prototype] of that name -- and every key before it can be read
    and is not RUNNING: a running step in front hides the unreadable one.
    So any answer other than RUNNING means that every key could be read.
    A key that only names an inherited member is read as a step in no
    state: a group with such a key never resolves to SUCCEEDED. *)
Theorem resolveState_throws_at_the_first_missing_step (metadata : IRunMetadataDict)
    (logCapture : ILogCaptureInfo) :
  (resolveState metadata logCapture = Throws_TypeError ↔
   ∃ before key after,
     stepKeys logCapture = before ++ key :: after ∧
     unreadable metadata key ∧
     Forall (λ key', ¬ unreadable metadata key' ∧
                     ∀ m, steps metadata !! key' = Some m → state m ≠ RUNNING) before) ∧
  (∀ s, resolveState metadata logCapture = Returns s → s ≠ RUNNING →
        Forall (λ key, ¬ unreadable metadata key) (stepKeys logCapture)) ∧
  (∀ key, key ∈ stepKeys logCapture →
          steps metadata !! key = None → key ∈ object_prototype_members →
          resolveState metadata logCapture ≠ Returns SUCCEEDED).
Proof.
  assert (Hfirst : ∀ b, array_some (step_is metadata RUNNING) (stepKeys logCapture)
                        = Returns b →
            (b = true → resolveState metadata logCapture = Returns RUNNING) ∧
            (b = false →
               Forall (λ key, ¬ unreadable metadata key) (stepKeys logCapture) ∧
               ∃ s, resolveState metadata logCapture = Returns s)).
  { intros b Hb. split.
    - intros ->. unfold resolveState. by rewrite Hb.
    - intros ->. apply array_some_false in Hb.
      assert (Forall (λ key, ¬ unreadable metadata key) (stepKeys logCapture)) as Hall.
      { eapply Forall_impl; [exact Hb|]. by intros key [? _]%step_is_false. }
      split; [done|]. by apply resolveState_readable. }
  split_and!.
  - split.
    + intros Hthrows.
      destruct (array_some (step_is metadata RUNNING) (stepKeys logCapture)) as [b|] eqn:Hb.
      * destruct (Hfirst b eq_refl) as [Htrue Hfalse]. destruct b.
        -- rewrite Htrue in Hthrows by done. done.
        -- destruct Hfalse as [_ [s Hs]]; [done|]. congruence.
      * apply array_some_throws in Hb as (before & key & after & Heq & Hkey & Hbefore).
        exists before, key, after. split_and!; [done|by apply step_is_throws in Hkey|].
        eapply Forall_impl; [exact Hbefore|]. intros key'. apply step_is_false.
    + intros (before & key & after & Heq & Hkey & Hbefore).
      assert (array_some (step_is metadata RUNNING) (stepKeys logCapture) = Throws_TypeError)
        as Hb.
      { apply array_some_throws. exists before, key, after.
        split_and!; [done|by apply step_is_throws|].
        eapply Forall_impl; [exact Hbefore|]. intros key'. apply step_is_false. }
      unfold resolveState. by rewrite Hb.
  - intros s Hs Hne.
    destruct (array_some (step_is metadata RUNNING) (stepKeys logCapture)) as [b|] eqn:Hb.
    + destruct (Hfirst b eq_refl) as [Htrue Hfalse]. destruct b.
      * rewrite Htrue in Hs by done. congruence.
      * by destruct Hfalse.
    + unfold resolveState in Hs. by rewrite Hb in Hs.
  - intros key Hkey Hnone Hproto. unfold resolveState.
    destruct (array_some (step_is metadata RUNNING) (stepKeys logCapture)) as [[|]|];
      cbn [mbind completion_bind]; [done| |done].
    destruct (array_some (step_is metadata SKIPPED) (stepKeys logCapture)) as [[|]|];
      cbn [mbind completion_bind]; [done| |done].
    destruct (array_every (step_is metadata SUCCEEDED) (stepKeys logCapture))
      as [[|]|] eqn:Hevery; cbn [mbind completion_bind]; [|done..].
    exfalso. apply array_every_true in Hevery.
    pose proof (proj1 (Forall_forall _ _) Hevery key Hkey) as Hstep. cbn beta in Hstep.
    rewrite (step_is_inherited _ _ _ Hnone Hproto) in Hstep. done.
Qed.

(** X13. When every step of two groups has metadata and the groups list
    the same steps in different orders, [resolveState] gives the same
    answer for both. *)
Theorem resolveState_ignores_the_order (metadata : IRunMetadataDict)
    (logCapture logCapture' : ILogCaptureInfo) :
  Forall (λ key, is_Some (steps metadata !! key)) (stepKeys logCapture) →
  stepKeys logCapture ≡ₚ stepKeys logCapture' →
  resolveState metadata logCapture = resolveState metadata logCapture'.
Proof.
  intros Hall Hperm.
  assert (Forall (λ key, is_Some (steps metadata !! key)) (stepKeys logCapture')) as Hall'
    by (by rewrite <- Hperm).
  rewrite (resolveState_states _ _ _ (group_states_present _ _ Hall)).
  rewrite (resolveState_states _ _ _ (group_states_present _ _ Hall')).
  pose proof (fmap_Permutation
    (λ key, from_option state RUNNING (steps metadata !! key)) _ _ Hperm) as Hsts.
  revert Hsts. generalize
    ((λ key, from_option state RUNNING (steps metadata !! key)) <$> stepKeys logCapture)
    ((λ key, from_option state RUNNING (steps metadata !! key)) <$> stepKeys logCapture').
  intros sts sts' Hsts.
  assert (∀ s, bool_decide (s ∈ sts) = bool_decide (s ∈ sts')) as Hmember.
  { intros s. apply bool_decide_ext. by rewrite Hsts. }
  assert (bool_decide (Forall (λ s, s = SUCCEEDED) sts)
          = bool_decide (Forall (λ s, s = SUCCEEDED) sts')) as Hevery.
  { apply bool_decide_ext. by rewrite Hsts. }
  by rewrite !Hmember, Hevery.
Qed.

(** ** The controls of the compute-log toolbar *)

Lemma append_empty (s t : string) : s +:+ t = "" ↔ s = "" ∧ t = "".
Proof.
  destruct s as [|c s]; [rewrite append_nil_l; tauto|].
  rewrite append_cons. split; [done|]. by intros [? _].
Qed.

Lemma js_get_outside_prototype {V : Type} (m : gmap string V) (key : string) :
  js_get m key ≠ inherited_property →
  js_get m key = match m !! key with Some v => own_property v | None => no_property end.
Proof.
  unfold js_get. destruct (m !! key); [done|].
  by destruct (bool_decide (key ∈ object_prototype_members)).
Qed.

(** X15. The text of the step button.  [logKeyText] throws exactly for a
    non-empty key that has no group and names a member inherited from
    [Object.prototype]; it is null exactly when the key is null or empty or
    nothing is found under it; and it is never the empty string, so the
    button reads "Select a step..." exactly when [logKeyText] is null and
    the text of the group otherwise.  Apart from the inherited names,
    [logKeyText] is null exactly when there is no valid step selection:
    the button, the tabs and the status indicator agree on whether a step
    is selected. *)
Theorem step_button_text_follows_the_selection
    (extract : list string → gmap string ILogCaptureInfo)
    (metadata : IRunMetadataDict) (key : option string) :
  let groups := logCaptureSteps_of extract metadata in
  (logKeyText groups key = Throws_TypeError ↔
   ∃ k, key = Some k ∧ k ≠ "" ∧ js_get groups k = inherited_property) ∧
  (logKeyText groups key = Returns None ↔
   key = None ∨ key = Some "" ∨ ∃ k, key = Some k ∧ js_get groups k = no_property) ∧
  logKeyText groups key ≠ Returns (Some "") ∧
  (∀ text, logKeyText groups key = Returns text →
     stepButtonText groups key = Returns (default "Select a step..." text)) ∧
  ((∀ k, key = Some k → js_get groups k ≠ inherited_property) →
   ∃ text, logKeyText groups key = Returns text ∧
           (text = None ↔ selected_group extract metadata key = None)).
Proof.
  intros groups.
  assert (Hgroup : ∀ k info, k ≠ "" →
    ∃ text, text ≠ "" ∧
      (if bool_decide (length (stepKeys info) = 1)
          && bool_decide (head (stepKeys info) = Some k)
       then Returns (Some k)
       else if truthy (pid info)
       then Returns (Some ("pid: " +:+ default "" (pid info) +:+ " ("
                           +:+ pretty (length (stepKeys info)) +:+ " steps)"))
       else Returns (Some (k +:+ " (" +:+ pretty (length (stepKeys info)) +:+ " steps)")))
      = Returns (Some text)).
  { intros k info Hk. destruct (_ && _); [by exists k|].
    destruct (truthy (pid info)); eexists; (split; [|done]).
    - rewrite append_cons. done.
    - intros Hempty. apply append_empty in Hempty as [? _]. done. }
  assert (Hnonempty : logKeyText groups key ≠ Returns (Some "")).
  { unfold logKeyText. destruct key as [k|]; [|done].
    destruct (decide (k = "")) as [->|Hk].
    - by rewrite bool_decide_eq_true_2.
    - rewrite bool_decide_eq_false_2 by done.
      destruct (js_get groups k) as [info| |]; [|done..].
      destruct (Hgroup k info Hk) as (text & Htext & ->). congruence. }
  split_and!.
  - unfold logKeyText. destruct key as [k|].
    + destruct (decide (k = "")) as [->|Hk].
      * rewrite bool_decide_eq_true_2 by done. split; [done|].
        by intros (? & [= <-] & ? & _).
      * rewrite bool_decide_eq_false_2 by done.
        destruct (js_get groups k) as [info| |] eqn:Hget.
        -- destruct (Hgroup k info Hk) as (text & _ & ->). split; [done|].
           intros (? & [= <-] & _ & Hin). congruence.
        -- split; [|done]. intros _. by exists k.
        -- split; [done|]. intros (? & [= <-] & _ & Hin). congruence.
    + split; [done|]. by intros (? & ? & _).
  - unfold logKeyText. destruct key as [k|].
    + destruct (decide (k = "")) as [->|Hk].
      * rewrite bool_decide_eq_true_2 by done. split; [|done]. intros _. right. by left.
      * rewrite bool_decide_eq_false_2 by done.
        destruct (js_get groups k) as [info| |] eqn:Hget.
        -- destruct (Hgroup k info Hk) as (text & _ & ->). split; [done|].
           intros [?|[[= ->]|(? & [= <-] & Hno)]]; [done|done|congruence].
        -- split; [done|].
           intros [?|[[= ->]|(? & [= <-] & Hno)]]; [done|done|congruence].
        -- split; [|done]. intros _. right. right. by exists k.
    + split; [|done]. intros _. by left.
  - done.
  - intros text Htext. unfold stepButtonText. rewrite Htext. cbn [mbind completion_bind].
    destruct text as [text|]; [|done].
    rewrite bool_decide_eq_false_2; [done|]. intros ->. by apply Hnonempty.
  - intros Hplain. unfold logKeyText, selected_group. fold groups.
    destruct key as [k|]; [|by exists None].
    destruct (decide (k = "")) as [->|Hk].
    + rewrite bool_decide_eq_true_2 by done. by exists None.
    + rewrite bool_decide_eq_false_2 by done.
      rewrite (js_get_outside_prototype groups k) by (by apply Hplain).
      destruct (groups !! k) as [info|]; [|by exists None].
      destruct (Hgroup k info Hk) as (text & _ & ->). exists (Some text). done.
Qed.

(** A key that names an inherited member, without a group. *)
Example logKeyText_throws_on_an_inherited_name :
  logKeyText ∅ (Some "constructor") = Throws_TypeError.
Proof. vm_compute. reflexivity. Qed.

(** A step key that names an inherited member, without metadata: read as
    a step in no state, so the group is FAILED and nothing throws. *)
Example resolveState_reads_an_inherited_name :
  resolveState no_metadata {| stepKeys := ["toString"]; pid := None |} = Returns FAILED.
Proof. vm_compute. reflexivity. Qed.

(** ** The controls of the structured-log toolbar *)

Lemma plain_item_round_trip (item : string) :
  plain_item item → print_value (parse_item item) = item.
Proof.
  intros [Hlack|(name & text & Hname & Hlname & Hltext & ->)]; unfold parse_item.
  - by rewrite split_at_lacks.
  - rewrite append_cons, append_nil_l, split_at_app, (split_at_lacks _ text) by done.
    unfold print_value. cbn [token value truthy].
    rewrite bool_decide_eq_false_2 by done. cbn [negb default from_option].
    by rewrite append_cons, append_nil_l.
Qed.

(** X16. Typing and showing a query are inverse on plain items: when
    every typed token has no colon, or one colon after a non-empty name,
    the string shown for the filter that [onChange] sets is the tokens
    joined by single spaces.  A token with a second colon loses
    everything from that colon on. *)
Theorem log_query_round_trip (filter : LogFilter) (tokens : list string) :
  (Forall plain_item tokens →
   logQueryToString (logQuery (onChange filter tokens)) = String.concat " " tokens) ∧
  (∀ name text rest, lacks ":" name → lacks ":" text →
     parse_item (name +:+ ":" +:+ text +:+ ":" +:+ rest)
     = {| token := Some name; value := text |}).
Proof.
  split.
  - intros Hplain. unfold logQueryToString, onChange. cbn [logQuery]. f_equal.
    induction Hplain as [|item items Hitem _ IH]; [done|].
    rewrite !fmap_cons, IH. f_equal. by apply plain_item_round_trip.
  - intros name text rest Hname Htext. unfold parse_item.
    rewrite !append_cons, !append_nil_l.
    rewrite split_at_app by done. rewrite split_at_app by done.
    pose proof (split_at_not_nil ":"%char rest). by destruct (split_at ":" rest).
Qed.

(** X17. Clicking a level button flips that level and no other, an
    absent level counting as off; clicking it twice leaves every level as
    it was; the query and the hide-non-matches flag are not touched. *)
Theorem level_button_toggles_one_level (filter : LogFilter) (level : string) :
  level_enabled (toggle_level filter level) level = negb (level_enabled filter level) ∧
  (∀ other, other ≠ level →
     level_enabled (toggle_level filter level) other = level_enabled filter other) ∧
  (∀ any, level_enabled (toggle_level (toggle_level filter level) level) any
          = level_enabled filter any) ∧
  logQuery (toggle_level filter level) = logQuery filter ∧
  hideNonMatches (toggle_level filter level) = hideNonMatches filter.
Proof.
  assert (Hsame : ∀ f, level_enabled (toggle_level f level) level
                       = negb (level_enabled f level)).
  { intros f. unfold level_enabled at 1, toggle_level. cbn [levels].
    by rewrite lookup_insert_eq. }
  assert (Hother : ∀ f other, other ≠ level →
            level_enabled (toggle_level f level) other = level_enabled f other).
  { intros f other Hne. unfold level_enabled, toggle_level. cbn [levels].
    by rewrite lookup_insert_ne. }
  split_and!; [apply Hsame|apply Hother| |done|done].
  intros any. destruct (decide (any = level)) as [->|Hne].
  - rewrite !Hsame. apply negb_involutive.
  - by rewrite !Hother.
Qed.

Lemma filterText_empty (l : list LogFilterValue) (accum : string) :
  foldl (λ accum v, accum +:+ value v) accum l = "" ↔
  accum = "" ∧ Forall (λ v, value v = "") l.
Proof.
  revert accum. induction l as [|v l IH]; intros accum; cbn [foldl].
  - split; [by split|by intros [? _]].
  - rewrite IH, append_empty, Forall_cons. tauto.
Qed.

(** X18. The "Hide non-matches" checkbox is there exactly when some entry
    of the query has a non-empty value. *)
Theorem hide_non_matches_needs_some_text (filter : LogFilter) :
  shows_hide_non_matches filter = true ↔ ∃ v, v ∈ logQuery filter ∧ value v ≠ "".
Proof.
  unfold shows_hide_non_matches, filterText.
  rewrite negb_true_iff, bool_decide_eq_false, filterText_empty.
  split.
  - intros Hnot. apply Exists_exists. apply not_Forall_Exists; [intros v; apply _|].
    intros Hall. by apply Hnot.
  - intros (v & Hv & Hne) [_ Hall]. apply Hne.
    by apply (proj1 (Forall_forall _ _) Hall).
Qed.

(** ** The telemetry id *)

(** X19. After a call the storage holds the returned id under the
    telemetry key and is otherwise unchanged; a stored non-empty id is
    returned as it is, without a write; and a second call returns the id of
    the first and leaves the storage alone, whatever would be generated,
    unless the first id was empty. *)
Theorem telemetry_id_is_kept (generated generated' : string)
    (localStorage : gmap string string) :
  let first := Telemetry.getTelemetryBrowserId generated localStorage in
  let second := Telemetry.getTelemetryBrowserId generated' (snd first) in
  snd first !! Telemetry.TELEMETRY_BROWSER_ID = Some (fst first) ∧
  (∀ key, key ≠ Telemetry.TELEMETRY_BROWSER_ID → snd first !! key = localStorage !! key) ∧
  (∀ stored, localStorage !! Telemetry.TELEMETRY_BROWSER_ID = Some stored → stored ≠ "" →
             first = (stored, localStorage)) ∧
  (fst first ≠ "" → second = first).
Proof.
  intros first second. subst second.
  assert (Hwritten : ∀ id : string, id ≠ "" →
            Telemetry.getTelemetryBrowserId generated'
              (<[Telemetry.TELEMETRY_BROWSER_ID := id]> localStorage)
            = (id, <[Telemetry.TELEMETRY_BROWSER_ID := id]> localStorage)).
  { intros id Hid. unfold Telemetry.getTelemetryBrowserId.
    rewrite lookup_insert_eq. by rewrite bool_decide_eq_false_2. }
  destruct (localStorage !! Telemetry.TELEMETRY_BROWSER_ID) as [stored|] eqn:Hstored.
  - destruct (decide (stored = "")) as [->|Hne].
    + assert (first = (generated, <[Telemetry.TELEMETRY_BROWSER_ID := generated]> localStorage))
        as Hfirst.
      { subst first. unfold Telemetry.getTelemetryBrowserId. rewrite Hstored.
        by rewrite bool_decide_eq_true_2. }
      clearbody first. subst first. cbn [fst snd]. split_and!.
      * apply lookup_insert_eq.
      * intros key Hkey. by rewrite lookup_insert_ne.
      * intros stored [= <-]. done.
      * apply Hwritten.
    + assert (first = (stored, localStorage)) as Hfirst.
      { subst first. unfold Telemetry.getTelemetryBrowserId. rewrite Hstored.
        by rewrite bool_decide_eq_false_2. }
      clearbody first. subst first. cbn [fst snd]. split_and!.
      * done.
      * done.
      * by intros stored' [= <-].
      * intros _. unfold Telemetry.getTelemetryBrowserId.
        rewrite Hstored. by rewrite bool_decide_eq_false_2.
  - assert (first = (generated, <[Telemetry.TELEMETRY_BROWSER_ID := generated]> localStorage))
      as Hfirst.
    { subst first. unfold Telemetry.getTelemetryBrowserId. by rewrite Hstored. }
    clearbody first. subst first. cbn [fst snd]. split_and!.
    + apply lookup_insert_eq.
    + intros key Hkey. by rewrite lookup_insert_ne.
    + done.
    + apply Hwritten.
Qed.

(** ** The further statements at concrete inputs *)

Lemma chain_graph_keys (a b c : Node) (x n : string) :
  n ∈ neighbour_keys (chain_graph a b c) x → n = id a ∨ n = id b ∨ n = id c.
Proof.
  unfold neighbour_keys, chain_graph. cbn [upstream downstream].
  rewrite !lookup_insert, !lookup_empty.
  repeat case_decide; unfold keys_or_empty, default, from_option, Datatypes.id;
    rewrite elem_of_app, ?elem_of_cons, ?elem_of_nil; tauto.
Qed.

Lemma chain_graph_resolved (a b c : Node) : adjacency_resolved (chain_graph a b c).
Proof.
  intros x n Hn%chain_graph_keys. unfold chain_graph. cbn [nodes].
  rewrite !lookup_insert, lookup_empty.
  destruct Hn as [-> | [-> | ->]]; repeat case_decide; eauto; congruence.
Qed.

Lemma chain_graph_walk (a b c : Node) :
  id a ≠ id b → id b ≠ id c → id a ≠ id c →
  walk (chain_graph a b c) [id a; id b; id c].
Proof.
  intros Hab Hbc Hac. apply walk_step; [|apply walk_step; [|apply walk_end]].
  - apply adjacent_linked. rewrite chain_adjacent_first by done. left.
  - apply adjacent_linked. rewrite chain_adjacent_middle by done. right. left.
Qed.

Lemma two_islands_unreachable (a b : Node) :
  id a ≠ id b → ¬ rtc (linked (two_islands a b)) (id a) (id b).
Proof.
  intros Hne Hreach. destruct Hreach as [|x y z Hl _]; [done|].
  by apply two_islands_unlinked in Hl.
Qed.

Lemma opsInRange_is_shortest_witness :
  opsInRange (chain_graph node_A node_B node_C) (Some node_A) node_C
    = Some (Returns [Some "A"; Some "B"; Some "C"]) ∧
  walk (chain_graph node_A node_B node_C) ["a"; "b"; "c"] ∧
  length [Some "A"; Some "B"; Some "C"] ≤ length ["a"; "b"; "c"].
Proof.
  assert (walk (chain_graph node_A node_B node_C) ["a"; "b"; "c"]) as Hwalk
    by (apply (chain_graph_walk node_A node_B node_C); discriminate).
  split; [vm_compute; reflexivity|]. split; [exact Hwalk|].
  refine (proj2 (opsInRange_is_shortest (chain_graph node_A node_B node_C) node_A node_C
                   [Some "A"; Some "B"; Some "C"] ["a"; "b"; "c"] _ Hwalk _ _));
    vm_compute; reflexivity.
Defined.

Lemma opsInRange_finds_what_is_reachable_witness :
  adjacency_resolved (chain_graph node_A node_B node_C) ∧
  ∃ r, opsInRange (chain_graph node_A node_B node_C) (Some node_A) node_C = Some (Returns r) ∧
       (r ≠ [] ↔ rtc (linked (chain_graph node_A node_B node_C)) (id node_A) (id node_C)).
Proof.
  split; [apply chain_graph_resolved|].
  apply opsInRange_finds_what_is_reachable, chain_graph_resolved.
Defined.

Lemma opsInRange_result_is_short_witness :
  opsInRange shortcut_graph (Some node_A) node_D = Some (Returns [Some "A"; Some "C"; Some "D"]) ∧
  length [Some "A"; Some "C"; Some "D"] ≤ size (nodes shortcut_graph) + 1.
Proof.
  split; [vm_compute; reflexivity|].
  apply (opsInRange_result_is_short shortcut_graph node_A node_D). vm_compute. reflexivity.
Defined.

Lemma click_removes_a_selected_op_witness :
  onSelectNode (chain_graph node_A node_B node_C)
    {| pipelineName := "job"; solidsQuery := "A,C"; pathSolids := ["A"] |}
    None {| shiftKey := false; metaKey := true |} node_C
  = Some (Returns (Some {| pipelineName := "job"; solidsQuery := "A"; pathSolids := ["C"] |})) ∧
  "C" ∈ split_comma "A,C" ∧
  ("C" ∉ split_comma "A").
Proof.
  assert ("C" ∈ split_comma "A,C") as Hin.
  { change (split_comma "A,C") with ["A"; "C"]. right. left. }
  split; [vm_compute; reflexivity|]. split; [exact Hin|].
  refine (proj1 (proj2 (click_removes_a_selected_op (chain_graph node_A node_B node_C)
    {| pipelineName := "job"; solidsQuery := "A,C"; pathSolids := ["A"] |}
    {| pipelineName := "job"; solidsQuery := "A"; pathSolids := ["C"] |}
    None {| shiftKey := false; metaKey := true |} node_C "C" _ _ _ Hin)));
    vm_compute; reflexivity.
Defined.

Lemma click_adds_the_clicked_op_witness :
  ("C" ∉ split_comma "A") ∧
  ∃ path', onSelectNode (chain_graph node_A node_B node_C)
             {| pipelineName := "job"; solidsQuery := "A"; pathSolids := ["A"] |}
             None {| shiftKey := false; metaKey := true |} node_C
           = Some (Returns (Some path')) ∧
           solidsQuery path' = String.concat "," (uniq (split_comma "A") ++ ["C"]).
Proof.
  assert ("C" ∉ split_comma "A") as Hout.
  { rewrite list_elem_of_In. vm_compute. intros [H|[]]; discriminate H. }
  split; [exact Hout|].
  destruct (click_adds_the_clicked_op (chain_graph node_A node_B node_C)
              {| pipelineName := "job"; solidsQuery := "A"; pathSolids := ["A"] |}
              None {| shiftKey := false; metaKey := true |} node_C "C")
    as (path' & Hclick & Hquery & _);
    [reflexivity|discriminate|reflexivity|reflexivity|exact Hout|].
  exists path'. done.
Defined.

Lemma shift_click_out_of_reach_adds_nothing_witness :
  adjacency_resolved (two_islands node_A node_B) ∧
  ¬ rtc (linked (two_islands node_A node_B)) (id node_A) (id node_B) ∧
  ∃ path', onSelectNode (two_islands node_A node_B)
             {| pipelineName := "job"; solidsQuery := "A"; pathSolids := ["A"] |}
             (Some node_A) {| shiftKey := true; metaKey := false |} node_B
           = Some (Returns (Some path')) ∧
           split_comma (solidsQuery path') = uniq (split_comma "A").
Proof.
  assert (id node_A ≠ id node_B) as Hne by discriminate.
  split; [apply two_islands_resolved|]. split; [by apply two_islands_unreachable|].
  destruct (shift_click_out_of_reach_adds_nothing (two_islands node_A node_B)
              {| pipelineName := "job"; solidsQuery := "A"; pathSolids := ["A"] |}
              node_A {| shiftKey := true; metaKey := false |} node_B "B")
    as (path' & Hclick & Hquery & _).
  - apply two_islands_resolved.
  - by apply two_islands_unreachable.
  - reflexivity.
  - discriminate.
  - reflexivity.
  - reflexivity.
  - rewrite list_elem_of_In. vm_compute. intros [H|[]]; discriminate H.
  - exists path'. done.
Defined.

Lemma shift_click_adds_the_path_witness :
  opsInRange (chain_graph node_A node_B node_C) (Some node_A) node_C
    = Some (Returns (Some <$> ["A"; "B"; "C"])) ∧
  ∃ path', onSelectNode (chain_graph node_A node_B node_C)
             {| pipelineName := "job"; solidsQuery := "X"; pathSolids := [] |}
             (Some node_A) {| shiftKey := true; metaKey := false |} node_C
           = Some (Returns (Some path')) ∧
           split_comma (solidsQuery path') = uniq (split_comma "X" ++ ["A"; "B"; "C"]).
Proof.
  split; [vm_compute; reflexivity|].
  apply (shift_click_adds_the_path (chain_graph node_A node_B node_C)
           {| pipelineName := "job"; solidsQuery := "X"; pathSolids := [] |}
           node_A {| shiftKey := true; metaKey := false |} node_C "C" ["A"; "B"; "C"]).
  - vm_compute. reflexivity.
  - repeat constructor; discriminate.
  - reflexivity.
  - discriminate.
  - reflexivity.
  - reflexivity.
  - rewrite list_elem_of_In. vm_compute. intros [H|[]]; discriminate H.
Defined.

Lemma resolveState_ignores_the_order_witness :
  ["a"; "b"] ≡ₚ ["b"; "a"] ∧
  resolveState
    {| steps := <["a" := {| state := RUNNING |}]> (<["b" := {| state := FAILED |}]> ∅);
       logCaptureSteps := None |}
    {| stepKeys := ["a"; "b"]; pid := None |}
  = resolveState
    {| steps := <["a" := {| state := RUNNING |}]> (<["b" := {| state := FAILED |}]> ∅);
       logCaptureSteps := None |}
    {| stepKeys := ["b"; "a"]; pid := None |}.
Proof.
  split; [apply Permutation_swap|].
  apply resolveState_ignores_the_order.
  - repeat constructor; eexists; reflexivity.
  - apply Permutation_swap.
Defined.
